(** * caddy-client-proxy: the [client_proxy] middleware of [cp.go]

    A shallow embedding of [src/cp.go]: configuration validation, the
    [bufConn] connection decorator, the request director, and the
    goroutines that run [ServeHTTP] / [acceptProxy] against the shared
    [atomic.Value] slot of the [Middleware]. *)

From stdpp Require Import base option list gmap strings.

Open Scope string_scope.
Open Scope nat_scope.
Open Scope list_scope.

(** ** Go errors *)

(** The error values the middleware creates or inspects.  [wrapError] is
    what [fmt.Errorf] builds for a format ending in [%w]. *)
Inductive error : Type :=
| errorString (msg : string)
| ErrClosed
| wrapError (msg : string) (err : error).

#[global] Instance error_eq_dec : EqDecision error.
Proof. solve_decision. Defined.

(** [err.Error()] *)
Definition Error (e : error) : string :=
  match e with
  | errorString msg => msg
  | ErrClosed => "use of closed network connection"
  | wrapError msg _ => msg
  end.

(** [fmt.Errorf(prefix + "%w", err)] *)
Definition Errorf_w (prefix : string) (err : error) : error :=
  wrapError (prefix +:+ Error err) err.

(** [errors.Is(err, target)] for non-nil arguments: walk the [Unwrap]
    chain and compare each link with the target. *)
Fixpoint errors_Is (err target : error) : bool :=
  if decide (err = target) then true
  else match err with
       | wrapError _ inner => errors_Is inner target
       | _ => false
       end.

(** ** Requests *)

Record URL : Type := mkURL {
  Scheme : string;
  Host : string;
  Path : string;
  RawQuery : string
}.

(** [http.Header]: canonical key to the list of its values. *)
Record Request : Type := mkRequest {
  Method : string;
  rURL : URL;
  rHost : string;
  Header : gmap string (list string)
}.

(** [h.Get(key)] for a key that is already in canonical form, as the
    literal ["X-Client-Proxy"] is: the first value, or the empty string. *)
Definition Header_Get (h : gmap string (list string)) (key : string) : string :=
  match h !! key with
  | Some (v :: _) => v
  | _ => EmptyString
  end.

(** The authority a request is sent to: [Host] when set, [URL.Host]
    otherwise. *)
Definition authority (r : Request) : string :=
  if decide (rHost r = EmptyString) then Host (rURL r) else rHost r.

(** The [Director] closure of [acceptProxy]: [r.URL.Scheme = "https"]. *)
Definition Director_https (r : Request) : Request :=
  mkRequest (Method r)
            (mkURL "https" (Host (rURL r)) (Path (rURL r)) (RawQuery (rURL r)))
            (rHost r) (Header r).

(** ** [bufConn]: a connection that first drains a carried-over buffer *)

Section BufConn.

(** The underlying [net.Conn]: [Conn_Read c k] is [c.Read(p)] with
    [len(p) = k]; it returns the bytes placed in [p], the error, and the
    connection afterwards. *)
Context {Conn : Type}.
Variable Conn_Read : Conn -> nat -> (list Byte.byte * option error) * Conn.

(** [bufio.Reader], seen through what [Read] and [Buffered] use:
    [rbuf] is [b.buf[b.r:b.w]], [rcap] is [len(b.buf)], [rerr] is
    [b.err].  Its source [b.rd] is the hijacked connection itself, which
    is therefore passed in and handed back. *)
Record Reader : Type := mkReader {
  rbuf : list Byte.byte;
  rcap : nat;
  rerr : option error
}.

Definition Buffered (b : Reader) : nat := length (rbuf b).

(** [bufio.Reader.Read] *)
Definition Reader_Read (b : Reader) (c : Conn) (k : nat)
  : (list Byte.byte * option error) * Reader * Conn :=
  if decide (k = 0) then
    if decide (0 < Buffered b) then (([], None), b, c)
    else (([], rerr b), mkReader (rbuf b) (rcap b) None, c)
  else
    match rbuf b with
    | [] =>
        match rerr b with
        | Some e => (([], Some e), mkReader [] (rcap b) None, c)
        | None =>
            if decide (rcap b ≤ k) then
              let '((bs, e), c') := Conn_Read c k in
              ((bs, e), mkReader [] (rcap b) None, c')
            else
              let '((bs, e), c') := Conn_Read c (rcap b) in
              match bs with
              | [] => (([], e), mkReader [] (rcap b) None, c')
              | _ => ((take k bs, None), mkReader (drop k bs) (rcap b) e, c')
              end
        end
    | _ => ((take k (rbuf b), None), mkReader (drop k (rbuf b)) (rcap b) (rerr b), c)
    end.

Record bufConn : Type := mkBufConn {
  bcConn : Conn;
  bcReader : option Reader
}.

(** [bufConn.Read] *)
Definition bufConn_Read (c : bufConn) (k : nat)
  : (list Byte.byte * option error) * bufConn :=
  match bcReader c with
  | None =>
      let '(res, conn') := Conn_Read (bcConn c) k in
      (res, mkBufConn conn' None)
  | Some rd =>
      let n := Buffered rd in
      if decide (n = 0) then
        let '(res, conn') := Conn_Read (bcConn c) k in
        (res, mkBufConn conn' None)
      else
        let k' := if decide (n < k) then n else k in
        let '(res, rd', conn') := Reader_Read rd (bcConn c) k' in
        (res, mkBufConn conn' (Some rd'))
  end.

(** The [net.Conn] handed to [NewClientConn]: the hijacked connection
    itself, or the decorator. *)
Inductive netConn : Type :=
| rawConn (c : Conn)
| decorated (bc : bufConn).

(** Lines 81-83 of [acceptProxy]. *)
Definition wrap (conn : Conn) (rd : Reader) : netConn :=
  if decide (0 < Buffered rd) then decorated (mkBufConn conn (Some rd))
  else rawConn conn.

Definition netConn_Read (c : netConn) (k : nat)
  : (list Byte.byte * option error) * netConn :=
  match c with
  | rawConn c0 => let '(res, c') := Conn_Read c0 k in (res, rawConn c')
  | decorated bc => let '(res, bc') := bufConn_Read bc k in (res, decorated bc')
  end.

(** The connection underneath. *)
Definition underlying (c : netConn) : Conn :=
  match c with
  | rawConn c0 => c0
  | decorated bc => bcConn bc
  end.

(** A sequence of [Read] calls with buffers of the given lengths. *)
Fixpoint reads (c : netConn) (ks : list nat)
  : list (list Byte.byte * option error) * netConn :=
  match ks with
  | [] => ([], c)
  | k :: ks' =>
      let '(res, c') := netConn_Read c k in
      let '(rest, c'') := reads c' ks' in
      (res :: rest, c'')
  end.

(** The same sequence issued on the underlying connection directly. *)
Fixpoint direct_reads (c : Conn) (ks : list nat)
  : list (list Byte.byte * option error) * Conn :=
  match ks with
  | [] => ([], c)
  | k :: ks' =>
      let '(res, c') := Conn_Read c k in
      let '(rest, c'') := direct_reads c' ks' in
      (res :: rest, c'')
  end.

(** All the bytes a sequence of reads returned, in order. *)
Definition received (outs : list (list Byte.byte * option error)) : list Byte.byte :=
  concat (map fst outs).

End BufConn.

(** What reads of the given sizes return while they are served from the
    carried-over bytes [bs]: each takes as many of the bytes still left as
    its buffer holds, in order, with a nil error. *)
Fixpoint buffered_chunks (bs : list Byte.byte) (ks : list nat)
  : list (list Byte.byte * option error) :=
  match ks with
  | [] => []
  | k :: ks' => (take k bs, None) :: buffered_chunks (drop k bs) ks'
  end.

(** ** The middleware and what its goroutines share *)

(** [httputil.ReverseProxy] as [acceptProxy] fills it in: [Transport] is
    the address of the [http2.ClientConn]. *)
Record ReverseProxy : Type := mkReverseProxy {
  Transport : nat;
  Director : Request -> Request
}.

(** [type handler struct]: [done] is the address of the channel. *)
Record handler : Type := mkHandler {
  proxy : ReverseProxy;
  done : nat
}.

(** [type Middleware struct]: the [atomic.Value] holds the address of a
    [handler], or nothing before the first [Store]. *)
Record Middleware : Type := mkMiddleware {
  Secret : string;
  m_handler : option nat
}.

(** [Middleware.Validate] *)
Definition Validate (m : Middleware) : option error :=
  if decide (Secret m = EmptyString) then Some (errorString "no secret") else None.

(** What the middleware does to the outside, in the order it does it. *)
Inductive event : Type :=
| EvHijack (r : Request)
| EvConnClose (r : Request)
| EvClose (ch : nat)
| EvStore (h : nat)
| EvShutdown (cc : nat)
| EvProxyServe (h : nat) (r : Request)
| EvNext (r : Request).

(** The heap: handlers, channels ([true] once closed), client connections
    ([true] once the connection is dead), and the trace of events. *)
Record world : Type := mkWorld {
  mw : Middleware;
  handlers : list handler;
  chans : list bool;
  conns : list bool;
  trace : list event
}.

Definition new_world (secret : string) : world :=
  mkWorld (mkMiddleware secret None) [] [] [] [].

Definition emit (w : world) (evs : list event) : world :=
  mkWorld (mw w) (handlers w) (chans w) (conns w) (trace w ++ evs).

(** The handler value built at lines 95-104. *)
Definition new_handler (h2conn ch : nat) : handler :=
  mkHandler (mkReverseProxy h2conn Director_https) ch.

(** [m.handler.Load().( *handler)] *)
Definition Load (w : world) : option nat := m_handler (mw w).

(** [make(chan struct{})] followed by [m.handler.Store(&handler{...})] *)
Definition Store (h2conn : nat) (w : world) : nat * world :=
  let ch := length (chans w) in
  let h := length (handlers w) in
  (ch, mkWorld (mkMiddleware (Secret (mw w)) (Some h))
               (handlers w ++ [new_handler h2conn ch])
               (chans w ++ [false])
               (conns w)
               (trace w ++ [EvStore h])).

(** [close(ch)] on an open channel. *)
Definition close_chan (ch : nat) (w : world) : world :=
  mkWorld (mw w) (handlers w) (<[ch := true]> (chans w)) (conns w)
          (trace w ++ [EvClose ch]).

(** A successful [h2t.NewClientConn(conn)]. *)
Definition alloc_conn (w : world) : nat * world :=
  (length (conns w),
   mkWorld (mw w) (handlers w) (chans w) (conns w ++ [false]) (trace w)).

(** The connection under a client connection goes away. *)
Definition die (cc : nat) (w : world) : world :=
  mkWorld (mw w) (handlers w) (chans w) (<[cc := true]> (conns w)) (trace w).

(** ** One goroutine per request *)

(** The request and the outcomes of the calls [ServeHTTP] makes into the
    HTTP server, the HTTP/2 library, the reverse proxy and the next
    handler ([None] is a nil error).  [proxyAbort] says that
    [handler.proxy.ServeHTTP], once its round trip over the transport has
    succeeded, fails to copy the response and aborts the handler by
    panicking with [http.ErrAbortHandler]. *)
Record env : Type := mkEnv {
  req : Request;
  enableFullDuplex : option error;
  hijack : option error;
  flush : option error;
  newClientConn : option error;
  shutdown : option error;
  next : option error;
  proxyAbort : bool
}.

(** Where a goroutine stands in [ServeHTTP] / [acceptProxy]. *)
Inductive pc : Type :=
| pcServeHTTP                       (* line 119 *)
| pcAcceptProxy                     (* lines 69-87 *)
| pcLoad (h2conn : nat)             (* line 90 *)
| pcClose (h2conn old : nat)        (* line 91 *)
| pcStore (h2conn : nat)            (* lines 94-104 *)
| pcWait (h2conn ch : nat)          (* line 105 *)
| pcShutdown (h2conn : nat)         (* lines 106-114 *)
| pcForward                         (* lines 122-126 *)
| pcReturn (err : option error)
| pcPanic.

Record goroutine : Type := mkGoroutine {
  genv : env;
  gpc : pc
}.

Definition goto (g : goroutine) (p : pc) : goroutine := mkGoroutine (genv g) p.

(** The connection under the transport of handler [h] is alive, so that
    a round trip over it can succeed.  Over a dead connection the round
    trip fails, and the reverse proxy answers with an error status and
    returns. *)
Definition transport_alive (w : world) (h : nat) : bool :=
  match handlers w !! h with
  | Some hd => bool_decide (conns w !! Transport (proxy hd) = Some false)
  | None => false
  end.

(** One atomic step of a goroutine; [None] when it is blocked on its
    channel or has finished.  Closing a channel that is already closed
    panics, and so does a forward that the reverse proxy aborts; the
    deferred [conn.Close()] runs on every way out of [acceptProxy] after
    the hijack. *)
Definition step (g : goroutine) (w : world) : option (goroutine * world) :=
  let e := genv g in
  let r := req e in
  match gpc g with
  | pcServeHTTP =>
      if decide (Header_Get (Header r) "X-Client-Proxy" = Secret (mw w))
      then Some (goto g pcAcceptProxy, w)
      else Some (goto g pcForward, w)
  | pcAcceptProxy =>
      match enableFullDuplex e with
      | Some err =>
          Some (goto g (pcReturn (Some
                  (Errorf_w "client_proxy: must connect using HTTP/1.1: " err))), w)
      | None =>
          match hijack e with
          | Some err =>
              Some (goto g (pcReturn (Some
                      (Errorf_w "client_proxy: must connect using HTTP/1.1: " err))), w)
          | None =>
              match flush e with
              | Some err =>
                  Some (goto g (pcReturn (Some
                          (Errorf_w "client_proxy: unexpected flush error: " err))),
                        emit w [EvHijack r; EvConnClose r])
              | None =>
                  match newClientConn e with
                  | Some err =>
                      Some (goto g (pcReturn (Some
                              (Errorf_w "client_proxy: unable to create ClientConn: " err))),
                            emit w [EvHijack r; EvConnClose r])
                  | None =>
                      let '(cc, w') := alloc_conn (emit w [EvHijack r]) in
                      Some (goto g (pcLoad cc), w')
                  end
              end
          end
      end
  | pcLoad cc =>
      match Load w with
      | Some old => Some (goto g (pcClose cc old), w)
      | None => Some (goto g (pcStore cc), w)
      end
  | pcClose cc old =>
      match handlers w !! old with
      | Some hd =>
          match chans w !! done hd with
          | Some false => Some (goto g (pcStore cc), close_chan (done hd) w)
          | _ => Some (goto g pcPanic, emit w [EvConnClose r])
          end
      | None => Some (goto g pcPanic, emit w [EvConnClose r])
      end
  | pcStore cc =>
      let '(ch, w') := Store cc w in
      Some (goto g (pcWait cc ch), w')
  | pcWait cc ch =>
      match chans w !! ch with
      | Some true => Some (goto g (pcShutdown cc), w)
      | _ => None
      end
  | pcShutdown cc =>
      let w' := emit (die cc w) [EvShutdown cc; EvConnClose r] in
      match shutdown e with
      | Some err =>
          if errors_Is err ErrClosed
          then Some (goto g (pcReturn None), w')
          else Some (goto g (pcReturn (Some
                       (Errorf_w "client_proxy: error shutting down ClientConn: " err))), w')
      | None => Some (goto g (pcReturn None), w')
      end
  | pcForward =>
      match Load w with
      | Some h =>
          if proxyAbort e && transport_alive w h
          then Some (goto g pcPanic, emit w [EvProxyServe h r])
          else Some (goto g (pcReturn None), emit w [EvProxyServe h r])
      | None => Some (goto g (pcReturn (next e)), emit w [EvNext r])
      end
  | pcReturn _ => None
  | pcPanic => None
  end.

(** A goroutine running alone until it blocks or finishes. *)
Fixpoint run_goroutine (fuel : nat) (g : goroutine) (w : world) : goroutine * world :=
  match fuel with
  | 0 => (g, w)
  | S fuel' =>
      match step g w with
      | Some (g', w') => run_goroutine fuel' g' w'
      | None => (g, w)
      end
  end.

(** [ServeHTTP] called with the request of [e], run on its own. *)
Definition ServeHTTP (fuel : nat) (e : env) (w : world) : goroutine * world :=
  run_goroutine fuel (mkGoroutine e pcServeHTTP) w.

(** Requests served one after the other, each until it blocks or returns. *)
Fixpoint serve_all (fuel : nat) (es : list env) (w : world) : list goroutine * world :=
  match es with
  | [] => ([], w)
  | e :: es' =>
      let '(g, w') := ServeHTTP fuel e w in
      let '(gs, w'') := serve_all fuel es' w' in
      (g :: gs, w'')
  end.

(** ** Goroutines interleaved *)

Record machine : Type := mkMachine {
  goroutines : list goroutine;
  shared : world
}.

Inductive action : Type :=
| Run (g : nat)
| Die (cc : nat).

Definition act (mc : machine) (a : action) : machine :=
  match a with
  | Run i =>
      match goroutines mc !! i with
      | Some g =>
          match step g (shared mc) with
          | Some (g', w') => mkMachine (<[i := g']> (goroutines mc)) w'
          | None => mc
          end
      | None => mc
      end
  | Die cc => mkMachine (goroutines mc) (die cc (shared mc))
  end.

Definition run (sched : list action) (mc : machine) : machine :=
  foldl act mc sched.

Definition start (secret : string) (es : list env) : machine :=
  mkMachine (map (fun e => mkGoroutine e pcServeHTTP) es) (new_world secret).

(** ** Reading the trace *)

Definition is_close (ch : nat) (ev : event) : bool :=
  match ev with
  | EvClose ch' => bool_decide (ch = ch')
  | _ => false
  end.

(** How many times the channel was closed. *)
Definition closes (ch : nat) (tr : list event) : nat :=
  length (List.filter (is_close ch) tr).

Definition is_hijack (ev : event) : bool :=
  match ev with EvHijack _ => true | _ => false end.

Definition is_next (ev : event) : bool :=
  match ev with EvNext _ => true | _ => false end.

Definition is_forward (ev : event) : bool :=
  match ev with EvProxyServe _ _ => true | _ => false end.

Definition is_slot_write (ev : event) : bool :=
  match ev with EvStore _ | EvClose _ => true | _ => false end.

(** ** Vocabulary of the statements *)

(** The request carries the secret and every setup call succeeds. *)
Definition registers (secret : string) (e : env) : Prop :=
  Header_Get (Header (req e)) "X-Client-Proxy" = secret
  /\ enableFullDuplex e = None
  /\ hijack e = None
  /\ flush e = None
  /\ newClientConn e = None.

(** One of the four setup calls of [acceptProxy] fails. *)
Definition setup_fails (e : env) : Prop :=
  enableFullDuplex e ≠ None \/ hijack e ≠ None
  \/ flush e ≠ None \/ newClientConn e ≠ None.

(** No registration stands between its [Load] and its [Store]: channels
    of stored handlers exist, only closed channels have a close event, and
    the handler in the slot has its channel open. *)
Record quiescent (w : world) : Prop := mkQuiescent {
  q_done : forall h hd, handlers w !! h = Some hd -> done hd < length (chans w);
  q_closes : forall ch, chans w !! ch ≠ Some true -> closes ch (trace w) = 0;
  q_current : forall h, Load w = Some h ->
              exists hd, handlers w !! h = Some hd /\ chans w !! done hd = Some false
}.

(** The error of a failed setup, by the first call that failed. *)
Definition setup_error (e : env) (err : error) : Prop :=
  (exists c, enableFullDuplex e = Some c
             /\ err = Errorf_w "client_proxy: must connect using HTTP/1.1: " c)
  \/ (exists c, enableFullDuplex e = None /\ hijack e = Some c
                /\ err = Errorf_w "client_proxy: must connect using HTTP/1.1: " c)
  \/ (exists c, enableFullDuplex e = None /\ hijack e = None /\ flush e = Some c
                /\ err = Errorf_w "client_proxy: unexpected flush error: " c)
  \/ (exists c, enableFullDuplex e = None /\ hijack e = None /\ flush e = None
                /\ newClientConn e = Some c
                /\ err = Errorf_w "client_proxy: unable to create ClientConn: " c).

(** Lines 90-92 run without interruption: the handler in the slot, if
    any, has its channel closed. *)
Definition retire (w : world) : world :=
  match Load w with
  | Some old =>
      match handlers w !! old with
      | Some hd => close_chan (done hd) w
      | None => w
      end
  | None => w
  end.

(** The world a registration leaves behind when it runs from its hijack
    to its [Store] without interruption. *)
Definition registered (e : env) (w : world) : world :=
  snd (Store (length (conns w))
             (retire (snd (alloc_conn (emit w [EvHijack (req e)]))))).

(** What holds of the goroutine of the [i]-th of the registrations [es]
    once all of them have run: it waits on the channel of the handler it
    stored; the handler of the last one is in the slot, its channel open;
    the channel of every earlier one has been closed, once. *)
Definition settled (es : list env) (w' : world) (i : nat) (g : goroutine) : Prop :=
  exists cc ch,
    es !! i = Some (genv g) /\ gpc g = pcWait cc ch
    /\ (S i = length es ->
          exists h, Load w' = Some h
                    /\ handlers w' !! h = Some (new_handler cc ch)
                    /\ chans w' !! ch = Some false
                    /\ closes ch (trace w') = 0)
    /\ (S i < length es ->
          chans w' !! ch = Some true /\ closes ch (trace w') = 1).

(** An event that is neither a hand-over to the next handler nor a
    forward over the stored transport. *)
Definition quiet (ev : event) : Prop := is_next ev = false /\ is_forward ev = false.

(** Every stored handler carries the director of [acceptProxy]. *)
Definition directors_https (w : world) : Prop :=
  Forall (fun hd => Director (proxy hd) = Director_https) (handlers w).

(** The program points of [acceptProxy]. *)
Definition accepting (p : pc) : bool :=
  match p with
  | pcServeHTTP | pcForward => false
  | _ => true
  end.

(** ** Concrete requests *)

Module Ex.

Definition secret : string := "s3cret".

Definition request (credential host : string) : Request :=
  mkRequest "GET" (mkURL EmptyString EmptyString "/index.html" EmptyString) host
            {[ "X-Client-Proxy" := [credential] ]}.

(** A client that registers, and whose shutdown will succeed. *)
Definition client (host : string) : env :=
  mkEnv (request secret host) None None None None None None false.

(** A visitor without the secret; the next handler would answer it
    with an error of its own. *)
Definition visitor : env :=
  mkEnv (request "guess" "origin.example") None None None None None
        (Some (errorString "next handler")) false.

(** A visitor whose response is cut off while the proxy copies it. *)
Definition cut_off_visitor : env :=
  mkEnv (request "guess" "origin.example") None None None None None
        (Some (errorString "next handler")) true.

(** A client whose connection cannot be hijacked. *)
Definition h2_client : env :=
  mkEnv (request secret "h2.example") None
        (Some (errorString "feature not supported")) None None None None false.

(** A client whose shutdown fails for another reason than a closed
    connection. *)
Definition slow_client : env :=
  mkEnv (request secret "slow.example") None None None None
        (Some (errorString "context deadline exceeded")) None false.

(** The hijacked connection as the bytes still to come from the peer. *)
Definition wire_Read (c : list Byte.byte) (k : nat)
  : (list Byte.byte * option error) * list Byte.byte :=
  ((take k c, None), drop k c).

Definition preface : list Byte.byte := [Byte.x50; Byte.x52; Byte.x49].

Definition three_clients : list env :=
  [client "a.example"; client "b.example"; client "c.example"].

(** One client registered and waiting. *)
Definition active : world :=
  snd (ServeHTTP 5 (client "a.example") (new_world secret)).


(** Two clients race on an empty slot: both load before either stores. *)
Definition race : machine :=
  run [Run 0; Run 0; Run 0; Run 1; Run 1; Run 1; Run 0; Run 1]
      (start secret [client "a.example"; client "b.example"]).

(** The connection of the registered client dies, then a visitor is
    served. *)
Definition dead : machine :=
  run [Run 0; Run 0; Run 0; Run 0; Die 0; Run 1; Run 1]
      (start secret [client "a.example"; visitor]).

End Ex.

(** ** The Caddyfile directive *)

Section Caddyfile.

(** [caddyfile.Dispenser], through the four methods [UnmarshalCaddyfile]
    calls on it: [Next] and [NextArg] report whether they moved the
    cursor and leave the dispenser moved, [Val] and [ArgErr] read it. *)
Context {Dispenser : Type}.
Variable d_Next : Dispenser -> bool * Dispenser.
Variable d_NextArg : Dispenser -> bool * Dispenser.
Variable d_Val : Dispenser -> string.
Variable d_ArgErr : Dispenser -> error.

(** [Middleware.UnmarshalCaddyfile]: the middleware afterwards, the
    error, and the dispenser afterwards. *)
Definition UnmarshalCaddyfile (m : Middleware) (d : Dispenser)
  : Middleware * option error * Dispenser :=
  let '(_, d1) := d_Next d in
  let '(ok, d2) := d_NextArg d1 in
  if ok then (mkMiddleware (d_Val d2) (m_handler m), None, d2)
  else (m, Some (d_ArgErr d2), d2).

(** [parseCaddyfile]: [var m Middleware] is the zero value. *)
Definition parseCaddyfile (d : Dispenser) : Middleware * option error :=
  let '(m, err, _) := UnmarshalCaddyfile (mkMiddleware EmptyString None) d in
  (m, err).

End Caddyfile.

(** [Middleware.Provision] *)
Definition Provision (m : Middleware) : option error := None.

(** ** More vocabulary *)

(** The call is over: it has returned, or it has ended in a panic (a
    second close of a channel, or a forward the reverse proxy aborted). *)
Definition finished (p : pc) : Prop :=
  match p with
  | pcReturn _ | pcPanic => True
  | _ => False
  end.

Definition is_conn_close (ev : event) : bool :=
  match ev with EvConnClose _ => true | _ => false end.

Definition count (p : event -> bool) (evs : list event) : nat :=
  length (List.filter p evs).

(** Program points at which the goroutine owns a hijacked connection
    that it has not closed yet. *)
Definition holding (p : pc) : nat :=
  match p with
  | pcLoad _ | pcClose _ _ | pcStore _ | pcWait _ _ | pcShutdown _ => 1
  | _ => 0
  end.

(** Program points before the hijack. *)
Definition before_hijack (p : pc) : nat :=
  match p with
  | pcServeHTTP | pcAcceptProxy => 1
  | _ => 0
  end.

(** The shape every heap has, whatever the interleaving: handler [h]
    owns channel [h], the slot holds the handler stored last, and a
    channel has one close event when it is closed and none otherwise. *)
Record heap_shape (w : world) : Prop := mkHeapShape {
  hs_length : length (chans w) = length (handlers w);
  hs_done : forall h hd, handlers w !! h = Some hd -> done hd = h;
  hs_slot : match Load w with
            | Some h => S h = length (handlers w)
            | None => handlers w = []
            end;
  hs_closes : forall ch,
      closes ch (trace w) = if decide (chans w !! ch = Some true) then 1 else 0
}.

(** [w'] is [w] grown: nothing that was there has been rewritten. *)
Record extends (w w' : world) : Prop := mkExtends {
  ex_secret : Secret (mw w') = Secret (mw w);
  ex_handlers : handlers w `prefix_of` handlers w';
  ex_trace : trace w `prefix_of` trace w';
  ex_chans : forall ch, chans w !! ch = Some true -> chans w' !! ch = Some true;
  ex_conns : forall cc, conns w !! cc = Some true -> conns w' !! cc = Some true;
  ex_slot : is_Some (Load w) -> is_Some (Load w')
}.

(** [c] is the error one of the calls made for the request produced. *)
Definition is_cause (e : env) (c : error) : Prop :=
  enableFullDuplex e = Some c \/ hijack e = Some c \/ flush e = Some c
  \/ newClientConn e = Some c \/ shutdown e = Some c.

(** What [ServeHTTP] may return as an error: the next handler's own
    error, or an error of this package that wraps the error of the call
    that failed. *)
Definition returns_ok (g : goroutine) : Prop :=
  match gpc g with
  | pcReturn (Some err) =>
      next (genv g) = Some err
      \/ exists what cause,
           is_cause (genv g) cause
           /\ err = Errorf_w ("client_proxy: " +:+ what) cause
  | _ => True
  end.

(** The goroutines that own a hijacked connection they have not closed. *)
Definition in_flight (gs : list goroutine) : nat :=
  sum_list (map (fun g => holding (gpc g)) gs).

(** No goroutine has loaded handler [h] and is about to close its
    channel. *)
Definition nobody_closes (h : nat) (gs : list goroutine) : Prop :=
  Forall (fun g => forall cc, gpc g ≠ pcClose cc h) gs.

(** The state in which a stored handler has been displaced from the slot
    with its channel still open and nobody about to close it. *)
Record orphaned (h0 : nat) (mc : machine) : Prop := mkOrphaned {
  or_shape : heap_shape (shared mc);
  or_displaced : S h0 < length (handlers (shared mc));
  or_open : chans (shared mc) !! h0 = Some false;
  or_nobody : nobody_closes h0 (goroutines mc)
}.

Module Scenario.

(** The first client has been displaced by a second one and is about to
    be resumed, next to a visitor. *)
Definition displaced : machine :=
  mkMachine [mkGoroutine Ex.slow_client (pcWait 0 0);
             mkGoroutine Ex.visitor pcServeHTTP]
            (snd (ServeHTTP 5 (Ex.client "b.example") Ex.active)).

(** What the client whose connection cannot be hijacked is told. *)
Definition h2_error : error :=
  Errorf_w "client_proxy: must connect using HTTP/1.1: "
           (errorString "feature not supported").

End Scenario.

(** A connection that delivers a fixed stream of bytes: [pending c] is
    what is still to come, and a read takes its bytes off the front. *)
Definition stream_reader {Conn : Type}
    (Conn_Read : Conn -> nat -> (list Byte.byte * option error) * Conn)
    (pending : Conn -> list Byte.byte) : Prop :=
  forall c k, fst (fst (Conn_Read c k)) ++ pending (snd (Conn_Read c k)) = pending c.

(** What is still to come on the connection handed to the transport
    builder: the rest of the carried-over buffer, then the connection's. *)
Definition pending_on {Conn : Type} (pending : Conn -> list Byte.byte)
    (c : netConn) : list Byte.byte :=
  match c with
  | rawConn c0 => pending c0
  | decorated bc =>
      match bcReader bc with
      | Some rd => rbuf rd ++ pending (bcConn bc)
      | None => pending (bcConn bc)
      end
  end.

(** * Properties *)

(** ** [bufConn] *)

Section BufConnFacts.

Context {Conn : Type}.
Variable Conn_Read : Conn -> nat -> (list Byte.byte * option error) * Conn.

Local Abbreviation reads := (reads Conn_Read).
Local Abbreviation direct_reads := (direct_reads Conn_Read).

Lemma reads_rawConn (c : Conn) (ks : list nat) :
  reads (rawConn c) ks
  = (fst (direct_reads c ks), rawConn (snd (direct_reads c ks))).
Proof.
  revert c. induction ks as [|k ks IH]; intros c; simpl; [done|].
  destruct (Conn_Read c k) as [res c'].
  rewrite IH. by destruct (direct_reads c' ks).
Qed.

Lemma reads_nil_Reader (c : Conn) (ks : list nat) :
  reads (decorated (mkBufConn c None)) ks
  = (fst (direct_reads c ks),
     decorated (mkBufConn (snd (direct_reads c ks)) None)).
Proof.
  revert c. induction ks as [|k ks IH]; intros c; simpl; [done|].
  unfold bufConn_Read; simpl.
  destruct (Conn_Read c k) as [res c'].
  rewrite IH. by destruct (direct_reads c' ks).
Qed.

(** With bytes buffered and a request for no more than are buffered,
    [Reader.Read] copies from the buffer and leaves the source alone. *)
Lemma Reader_Read_buffered (rd : Reader) (c : Conn) (k : nat) :
  Buffered rd ≠ 0 ->
  Reader_Read Conn_Read rd c k
  = ((take k (rbuf rd), None),
     mkReader (drop k (rbuf rd)) (rcap rd) (rerr rd), c).
Proof.
  destruct rd as [bs cap e]; unfold Reader_Read, Buffered; simpl.
  intros Hn. destruct bs as [|b bs]; [done|].
  case_decide as Hk; [subst k|done].
  case_decide; [done|simpl in *; lia].
Qed.

(** What one [Read] on the decorator does while bytes are buffered. *)
Lemma bufConn_Read_buffered (rd : Reader) (c : Conn) (k : nat) :
  Buffered rd ≠ 0 ->
  bufConn_Read Conn_Read (mkBufConn c (Some rd)) k
  = ((take k (rbuf rd), None),
     mkBufConn c (Some (mkReader (drop k (rbuf rd)) (rcap rd) (rerr rd)))).
Proof.
  intros Hn. unfold bufConn_Read; simpl.
  case_decide; [done|].
  rewrite Reader_Read_buffered by done.
  case_decide as Hlt; [|done].
  unfold Buffered in *.
  by rewrite !take_ge, !drop_ge by lia.
Qed.

(** The first [Read] after the buffer ran dry drops the reader and goes
    to the connection. *)
Lemma bufConn_Read_exhausted (rd : Reader) (c : Conn) (k : nat) :
  Buffered rd = 0 ->
  bufConn_Read Conn_Read (mkBufConn c (Some rd)) k
  = (fst (Conn_Read c k), mkBufConn (snd (Conn_Read c k)) None).
Proof.
  intros Hn. unfold bufConn_Read; simpl.
  case_decide; [|done]. by destruct (Conn_Read c k).
Qed.

Lemma buffered_chunks_length (bs : list Byte.byte) (ks : list nat) :
  length (buffered_chunks bs ks) = length ks.
Proof. revert bs. induction ks as [|k ks IH]; intros bs; simpl; [done|]. by rewrite IH. Qed.

Lemma buffered_chunks_lookup (bs : list Byte.byte) (ks : list nat) (j k : nat) :
  ks !! j = Some k ->
  buffered_chunks bs ks !! j
  = Some (take k (drop (sum_list (take j ks)) bs), None).
Proof.
  revert bs j. induction ks as [|k0 ks IH]; intros bs j Hj; [done|].
  destruct j as [|j]; simpl in *.
  - by injection Hj as ->.
  - rewrite (IH _ _ Hj). by rewrite drop_drop.
Qed.

Lemma buffered_chunks_received (bs : list Byte.byte) (ks : list nat) :
  received (buffered_chunks bs ks) = take (sum_list ks) bs.
Proof.
  revert bs. induction ks as [|k ks IH]; intros bs; simpl.
  - by rewrite take_0.
  - unfold received in *; simpl. rewrite IH. apply take_take_drop.
Qed.

(** The decorator, whatever is left in its reader: the reads up to the
    one that finds the buffer empty are the chunks of the buffer, the
    others are the connection's. *)
Lemma reads_decorated (c : Conn) (rd : Reader) (ks : list nat) :
  exists ks1 ks2,
    ks = ks1 ++ ks2
    /\ fst (reads (decorated (mkBufConn c (Some rd))) ks)
       = buffered_chunks (rbuf rd) ks1 ++ fst (direct_reads c ks2)
    /\ (forall j, j < length ks1 -> sum_list (take j ks1) < Buffered rd)
    /\ (ks2 ≠ [] -> Buffered rd ≤ sum_list ks1)
    /\ underlying (snd (reads (decorated (mkBufConn c (Some rd))) ks))
       = snd (direct_reads c ks2).
Proof.
  revert rd. induction ks as [|k ks IH]; intros rd.
  - exists [], []. simpl. split_and!; try done. intros j Hj. lia.
  - destruct (decide (Buffered rd = 0)) as [Hz|Hnz].
    + exists [], (k :: ks). simpl.
      rewrite bufConn_Read_exhausted by done.
      destruct (Conn_Read c k) as [res c']; simpl.
      rewrite reads_nil_Reader. destruct (direct_reads c' ks); simpl.
      split_and!; try done; intros; lia.
    + destruct (IH (mkReader (drop k (rbuf rd)) (rcap rd) (rerr rd)))
        as (ks1 & ks2 & -> & Hout & Hmin & Hall & Hund).
      exists (k :: ks1), ks2.
      simpl in *. rewrite bufConn_Read_buffered by done.
      destruct (reads _ (ks1 ++ ks2)) as [rest c'']; simpl in *.
      unfold Buffered in *; simpl in *. rewrite length_drop in Hmin, Hall.
      split_and!.
      * done.
      * by rewrite Hout.
      * intros [|j] Hj; simpl; [lia|].
        specialize (Hmin j ltac:(lia)). lia.
      * intros Hne. specialize (Hall Hne). lia.
      * done.
Qed.

(** C7: when the pipeline had read ahead K > 0 bytes at hijack time, any
    sequence of [Read] calls on the connection handed to the transport
    builder splits in two.  The calls of the first part find bytes still
    buffered: each returns, with a nil error and without touching the
    underlying connection, as many of the buffered bytes as its buffer
    holds, starting where the call before it stopped, so that together
    they return the first bytes of the buffer in their original order,
    none twice and none skipped.  The calls of the second part are
    exactly the calls on the underlying connection; they start with the
    first call that finds the buffer empty, that is, only once all K
    bytes have been returned. *)
Theorem bufConn_replays_buffered_bytes_first
    (conn : Conn) (rd : Reader) (ks : list nat) :
  0 < Buffered rd ->
  exists ks1 ks2 outs1,
    ks = ks1 ++ ks2
    /\ length outs1 = length ks1
    /\ fst (reads (wrap conn rd) ks) = outs1 ++ fst (direct_reads conn ks2)
    /\ (forall j k, ks1 !! j = Some k ->
          outs1 !! j = Some (take k (drop (sum_list (take j ks1)) (rbuf rd)), None))
    /\ (forall j, j < length ks1 -> sum_list (take j ks1) < Buffered rd)
    /\ received outs1 = take (sum_list ks1) (rbuf rd)
    /\ (ks2 ≠ [] -> received outs1 = rbuf rd)
    /\ underlying (snd (reads (wrap conn rd) ks)) = snd (direct_reads conn ks2).
Proof.
  intros HK. unfold wrap. case_decide; [|done].
  destruct (reads_decorated conn rd ks)
    as (ks1 & ks2 & Hks & Hout & Hmin & Hall & Hund).
  exists ks1, ks2, (buffered_chunks (rbuf rd) ks1).
  split_and!; try done.
  - apply buffered_chunks_length.
  - intros j k Hj. by apply buffered_chunks_lookup.
  - apply buffered_chunks_received.
  - intros Hne. rewrite buffered_chunks_received.
    apply take_ge. specialize (Hall Hne). unfold Buffered in Hall. lia.
Qed.

End BufConnFacts.

Lemma bufConn_replays_buffered_bytes_first_witness :
  0 < Buffered (mkReader Ex.preface 4096 None)
  /\ exists ks1 ks2 outs1,
      [2; 2; 2] = ks1 ++ ks2
      /\ length outs1 = length ks1
      /\ fst (reads Ex.wire_Read (wrap [Byte.x0d; Byte.x0a] (mkReader Ex.preface 4096 None)) [2; 2; 2])
         = outs1 ++ fst (direct_reads Ex.wire_Read [Byte.x0d; Byte.x0a] ks2)
      /\ (forall j k, ks1 !! j = Some k ->
            outs1 !! j
            = Some (take k (drop (sum_list (take j ks1))
                                 (rbuf (mkReader Ex.preface 4096 None))), None))
      /\ (forall j, j < length ks1 ->
            sum_list (take j ks1) < Buffered (mkReader Ex.preface 4096 None))
      /\ received outs1
         = take (sum_list ks1) (rbuf (mkReader Ex.preface 4096 None))
      /\ (ks2 ≠ [] -> received outs1 = rbuf (mkReader Ex.preface 4096 None))
      /\ underlying (snd (reads Ex.wire_Read (wrap [Byte.x0d; Byte.x0a] (mkReader Ex.preface 4096 None)) [2; 2; 2]))
         = snd (direct_reads Ex.wire_Read [Byte.x0d; Byte.x0a] ks2).
Proof.
  split; [cbv; lia|].
  apply (bufConn_replays_buffered_bytes_first Ex.wire_Read
           [Byte.x0d; Byte.x0a] (mkReader Ex.preface 4096 None) [2; 2; 2]).
  cbv; lia.
Defined.

(** ** Configuration and the director *)

(** C9: [Validate] returns an error exactly when the configured secret is
    the empty string. *)
Theorem Validate_fails_iff_secret_empty (m : Middleware) :
  (exists err, Validate m = Some err) <-> Secret m = EmptyString.
Proof.
  unfold Validate. case_decide; split; intros H'.
  - done.
  - by eexists.
  - by destruct H'.
  - done.
Qed.

(** ** Steps of a goroutine *)

Lemma closes_app (ch : nat) (tr evs : list event) :
  closes ch (tr ++ evs) = closes ch tr + closes ch evs.
Proof. unfold closes. by rewrite List.filter_app, length_app. Qed.

Lemma run_goroutine_stuck (fuel : nat) (g : goroutine) (w : world) :
  step g w = None -> run_goroutine fuel g w = (g, w).
Proof. intros Hs. destruct fuel; simpl; [done|]. by rewrite Hs. Qed.

Lemma run_goroutine_step (fuel : nat) (g g' : goroutine) (w w' : world) :
  step g w = Some (g', w') ->
  run_goroutine (S fuel) g w = run_goroutine fuel g' w'.
Proof. intros Hs. simpl. by rewrite Hs. Qed.

Lemma step_ServeHTTP_secret (e : env) (w : world) :
  Header_Get (Header (req e)) "X-Client-Proxy" = Secret (mw w) ->
  step (mkGoroutine e pcServeHTTP) w = Some (mkGoroutine e pcAcceptProxy, w).
Proof. intros Hh. unfold step; simpl. by rewrite decide_True. Qed.

Lemma step_ServeHTTP_other (e : env) (w : world) :
  Header_Get (Header (req e)) "X-Client-Proxy" ≠ Secret (mw w) ->
  step (mkGoroutine e pcServeHTTP) w = Some (mkGoroutine e pcForward, w).
Proof. intros Hh. unfold step; simpl. by rewrite decide_False. Qed.

Lemma step_acceptProxy_ok (e : env) (w : world) :
  enableFullDuplex e = None -> hijack e = None ->
  flush e = None -> newClientConn e = None ->
  step (mkGoroutine e pcAcceptProxy) w
  = Some (mkGoroutine e (pcLoad (length (conns w))),
          snd (alloc_conn (emit w [EvHijack (req e)]))).
Proof. intros H1 H2 H3 H4. unfold step; simpl. by rewrite H1, H2, H3, H4. Qed.

Lemma emit_nil (w : world) : emit w [] = w.
Proof. destruct w; unfold emit; simpl. by rewrite app_nil_r. Qed.

Lemma step_acceptProxy_fails (e : env) (w : world) :
  setup_fails e ->
  exists err evs,
    step (mkGoroutine e pcAcceptProxy) w
    = Some (mkGoroutine e (pcReturn (Some err)), emit w evs)
    /\ setup_error e err
    /\ Forall (fun ev => is_slot_write ev = false /\ is_next ev = false
                         /\ is_forward ev = false) evs.
Proof.
  intros Hf. unfold step, setup_error; simpl.
  destruct (enableFullDuplex e) as [c1|] eqn:E1.
  { exists (Errorf_w "client_proxy: must connect using HTTP/1.1: " c1), [].
    split; [by rewrite emit_nil|]. split; [left; eauto|constructor]. }
  destruct (hijack e) as [c2|] eqn:E2.
  { exists (Errorf_w "client_proxy: must connect using HTTP/1.1: " c2), [].
    split; [by rewrite emit_nil|]. split; [right; left; eauto|constructor]. }
  destruct (flush e) as [c3|] eqn:E3.
  { eexists _, _. split; [done|]. split; [right; right; left; eauto|].
    by repeat constructor. }
  destruct (newClientConn e) as [c4|] eqn:E4.
  { eexists _, _. split; [done|].
    split; [right; right; right; eauto 10|]. by repeat constructor. }
  destruct Hf as [?|[?|[?|?]]]; done.
Qed.

(** ** A registration running alone *)

Lemma ServeHTTP_registers (fuel : nat) (e : env) (w : world) :
  5 ≤ fuel -> quiescent w -> registers (Secret (mw w)) e ->
  ServeHTTP fuel e w
  = (mkGoroutine e (pcWait (length (conns w)) (length (chans w))), registered e w).
Proof.
  intros Hfuel Hq (Hh & H1 & H2 & H3 & H4).
  do 5 (destruct fuel as [|fuel]; [lia|]). clear Hfuel.
  unfold ServeHTTP.
  rewrite (run_goroutine_step _ _ _ _ _ (step_ServeHTTP_secret e w Hh)).
  rewrite (run_goroutine_step _ _ _ _ _ (step_acceptProxy_ok e w H1 H2 H3 H4)).
  pose proof (q_current w Hq) as Hcur.
  destruct w as [[sec slot] hs cs cns tr].
  unfold registered, retire, Load in *; simpl in *.
  destruct slot as [old|]; simpl.
  - destruct (Hcur old eq_refl) as (hd & Hhd & Hopen).
    rewrite Hhd. unfold step, goto; simpl. rewrite Hhd, Hopen; simpl.
    rewrite run_goroutine_stuck; simpl.
    + by rewrite length_insert.
    + unfold step; simpl.
      rewrite lookup_app_r by done. by rewrite Nat.sub_diag.
  - unfold step, goto; simpl.
    rewrite lookup_app_r by done. by rewrite Nat.sub_diag.
Qed.

Lemma registered_Secret (e : env) (w : world) :
  Secret (mw (registered e w)) = Secret (mw w).
Proof.
  destruct w as [[sec slot] hs cs cns tr].
  unfold registered, retire, Load; simpl.
  destruct slot; simpl; [|done]. by destruct (hs !! _).
Qed.

Lemma registered_Load (e : env) (w : world) :
  Load (registered e w) = Some (length (handlers w)).
Proof.
  destruct w as [[sec slot] hs cs cns tr].
  unfold registered, retire, Load; simpl.
  destruct slot; simpl; [|done]. by destruct (hs !! _).
Qed.

Lemma registered_handlers (e : env) (w : world) :
  handlers (registered e w)
  = handlers w ++ [new_handler (length (conns w)) (length (chans w))].
Proof.
  destruct w as [[sec slot] hs cs cns tr].
  unfold registered, retire, Load; simpl.
  destruct slot; simpl; [|done].
  destruct (hs !! _); simpl; [|done]. by rewrite length_insert.
Qed.

Lemma registered_chans_length (e : env) (w : world) :
  length (chans (registered e w)) = S (length (chans w)).
Proof.
  destruct w as [[sec slot] hs cs cns tr].
  unfold registered, retire, Load; simpl.
  destruct slot; simpl; [|by rewrite length_app; simpl; lia].
  destruct (hs !! _); simpl; rewrite length_app; simpl;
    rewrite ?length_insert; lia.
Qed.

Lemma registered_empty_slot (e : env) (w : world) :
  Load w = None ->
  registered e w
  = mkWorld (mkMiddleware (Secret (mw w)) (Some (length (handlers w))))
            (handlers w ++ [new_handler (length (conns w)) (length (chans w))])
            (chans w ++ [false])
            (conns w ++ [false])
            (trace w ++ [EvHijack (req e); EvStore (length (handlers w))]).
Proof.
  destruct w as [[sec slot] hs cs cns tr].
  unfold registered, retire, Load; simpl. intros ->; simpl.
  by rewrite <- app_assoc.
Qed.

Lemma registered_full_slot (e : env) (w : world) (old : nat) (hd : handler) :
  Load w = Some old -> handlers w !! old = Some hd ->
  registered e w
  = mkWorld (mkMiddleware (Secret (mw w)) (Some (length (handlers w))))
            (handlers w ++ [new_handler (length (conns w)) (length (chans w))])
            (<[done hd := true]> (chans w) ++ [false])
            (conns w ++ [false])
            (trace w ++ [EvHijack (req e); EvClose (done hd);
                         EvStore (length (handlers w))]).
Proof.
  destruct w as [[sec slot] hs cs cns tr].
  unfold registered, retire, Load; simpl. intros -> Hhd; simpl.
  rewrite Hhd; simpl. by rewrite length_insert, <- !app_assoc.
Qed.

Lemma closes_cons (ch : nat) (ev : event) (tr : list event) :
  closes ch (ev :: tr) = (if is_close ch ev then 1 else 0) + closes ch tr.
Proof. unfold closes; simpl. by destruct (is_close ch ev). Qed.

(** The channel made by the registration is open and was never closed. *)
Lemma registered_new_chan (e : env) (w : world) :
  quiescent w ->
  chans (registered e w) !! length (chans w) = Some false
  /\ closes (length (chans w)) (trace (registered e w)) = 0.
Proof.
  intros Hq.
  assert (closes (length (chans w)) (trace w) = 0) as Hc.
  { apply (q_closes w Hq). by rewrite lookup_ge_None_2. }
  destruct (Load w) as [old|] eqn:HL.
  - destruct (q_current w Hq old HL) as (hd & Hhd & Hopen).
    rewrite (registered_full_slot e w old hd HL Hhd); simpl.
    apply lookup_lt_Some in Hopen. split.
    + rewrite lookup_app_r by (rewrite length_insert; lia).
      by rewrite length_insert, Nat.sub_diag.
    + rewrite closes_app, Hc, !closes_cons; simpl.
      by rewrite bool_decide_eq_false_2 by lia.
  - rewrite (registered_empty_slot e w HL); simpl. split.
    + rewrite lookup_app_r by done. by rewrite Nat.sub_diag.
    + by rewrite closes_app, Hc.
Qed.

(** The channel of the displaced handler is closed, by one close. *)
Lemma registered_retires_current (e : env) (w : world) (h : nat) (hd : handler) :
  quiescent w -> Load w = Some h -> handlers w !! h = Some hd ->
  chans (registered e w) !! done hd = Some true
  /\ closes (done hd) (trace (registered e w)) = 1.
Proof.
  intros Hq HL Hhd.
  destruct (q_current w Hq h HL) as (hd' & Hhd' & Hopen).
  assert (hd' = hd) as -> by congruence.
  assert (closes (done hd) (trace w) = 0) as Hc.
  { apply (q_closes w Hq). by rewrite Hopen. }
  rewrite (registered_full_slot e w h hd HL Hhd); simpl.
  apply lookup_lt_Some in Hopen as Hlt.
  split.
  - rewrite lookup_app_l by (rewrite length_insert; lia).
    by apply list_lookup_insert_eq.
  - rewrite closes_app, Hc, !closes_cons; simpl.
    by rewrite bool_decide_eq_true_2.
Qed.

(** A channel other than the one of the handler in the slot keeps its
    state and its closes. *)
Lemma registered_keeps_other (e : env) (w : world) (ch : nat) :
  quiescent w ->
  (forall h hd, Load w = Some h -> handlers w !! h = Some hd -> done hd ≠ ch) ->
  ch < length (chans w) ->
  chans (registered e w) !! ch = chans w !! ch
  /\ closes ch (trace (registered e w)) = closes ch (trace w).
Proof.
  intros Hq Hne Hlt.
  destruct (Load w) as [old|] eqn:HL.
  - destruct (q_current w Hq old HL) as (hd & Hhd & Hopen).
    rewrite (registered_full_slot e w old hd HL Hhd); simpl.
    specialize (Hne old hd eq_refl Hhd).
    split.
    + rewrite lookup_app_l by (rewrite length_insert; lia).
      by rewrite list_lookup_insert_ne.
    + rewrite closes_app, !closes_cons; simpl.
      rewrite bool_decide_eq_false_2 by done. unfold closes; simpl. lia.
  - rewrite (registered_empty_slot e w HL); simpl. split.
    + by rewrite lookup_app_l.
    + rewrite closes_app, !closes_cons; simpl. unfold closes; simpl. lia.
Qed.

(** A channel that was closed stays closed, with the closes it had. *)
Lemma registered_keeps_closed (e : env) (w : world) (ch : nat) :
  quiescent w -> chans w !! ch = Some true ->
  chans (registered e w) !! ch = Some true
  /\ closes ch (trace (registered e w)) = closes ch (trace w).
Proof.
  intros Hq Hch. rewrite <- Hch. apply registered_keeps_other; [done| |].
  - intros h hd HL Hhd Heq. subst ch.
    destruct (q_current w Hq h HL) as (hd' & Hhd' & Hopen). congruence.
  - by apply lookup_lt_Some in Hch.
Qed.

Lemma registered_quiescent (e : env) (w : world) :
  quiescent w -> quiescent (registered e w).
Proof.
  intros Hq. split.
  - intros h hd. rewrite registered_handlers, registered_chans_length.
    intros Hl. apply lookup_app_Some in Hl as [Hl|[_ Hl]].
    + apply (q_done w Hq) in Hl. lia.
    + apply list_lookup_singleton_Some in Hl as [_ Heq]. subst hd. simpl. lia.
  - intros ch Hch.
    destruct (decide (ch = length (chans w))) as [->|Hne].
    { by apply registered_new_chan. }
    destruct (decide (ch < length (chans w))) as [Hlt|Hge].
    + assert (forall h hd, Load w = Some h -> handlers w !! h = Some hd ->
                done hd ≠ ch) as Ho.
      { intros h hd HL Hhd Heq. subst ch.
        by destruct (registered_retires_current e w h hd Hq HL Hhd). }
      destruct (registered_keeps_other e w ch Hq Ho Hlt) as [Hsame ->].
      apply (q_closes w Hq). by rewrite <- Hsame.
    + assert (closes ch (trace w) = 0) as Hc.
      { apply (q_closes w Hq). rewrite lookup_ge_None_2 by lia. done. }
      destruct (Load w) as [old|] eqn:HL.
      * destruct (q_current w Hq old HL) as (hd & Hhd & Hopen).
        apply lookup_lt_Some in Hopen.
        rewrite (registered_full_slot e w old hd HL Hhd); simpl.
        rewrite closes_app, Hc, !closes_cons; simpl.
        by rewrite bool_decide_eq_false_2 by lia.
      * rewrite (registered_empty_slot e w HL); simpl.
        by rewrite closes_app, Hc.
  - intros h. rewrite registered_Load. intros [= <-].
    exists (new_handler (length (conns w)) (length (chans w))). split.
    + rewrite registered_handlers, lookup_app_r by done.
      by rewrite Nat.sub_diag.
    + by apply registered_new_chan.
Qed.

Lemma new_world_quiescent (secret : string) : quiescent (new_world secret).
Proof. split; simpl; try done. Qed.

(** ** Registrations one after the other *)

Lemma serve_all_registers (fuel : nat) (es : list env) :
  5 ≤ fuel ->
  forall w, quiescent w -> Forall (registers (Secret (mw w))) es ->
  exists gs w',
    serve_all fuel es w = (gs, w')
    /\ quiescent w'
    /\ Secret (mw w') = Secret (mw w)
    /\ (forall ch, chans w !! ch = Some true ->
          chans w' !! ch = Some true
          /\ closes ch (trace w') = closes ch (trace w))
    /\ (es ≠ [] -> forall h hd, Load w = Some h -> handlers w !! h = Some hd ->
          chans w' !! done hd = Some true /\ closes (done hd) (trace w') = 1)
    /\ length gs = length es
    /\ forall i g, gs !! i = Some g -> settled es w' i g.
Proof.
  intros Hfuel. induction es as [|e es IH]; intros w Hq Hes.
  - exists [], w. simpl. split_and!; done.
  - apply Forall_cons in Hes as [He Hes].
    pose proof (registered_quiescent e w Hq) as Hq1.
    rewrite <- (registered_Secret e w) in Hes.
    destruct (IH (registered e w) Hq1 Hes)
      as (gs & w' & Hrun & Hq' & Hsec & Hkeep & Hret & Hlen & Hset).
    exists (mkGoroutine e (pcWait (length (conns w)) (length (chans w))) :: gs), w'.
    simpl. rewrite (ServeHTTP_registers fuel e w Hfuel Hq He), Hrun.
    split; [done|]. split; [done|].
    split; [by rewrite Hsec, registered_Secret|].
    split; [|split; [|split]].
    + intros ch Hch.
      destruct (registered_keeps_closed e w ch Hq Hch) as [Hc1 <-].
      by apply Hkeep.
    + intros _ h hd HL Hhd.
      destruct (registered_retires_current e w h hd Hq HL Hhd) as [Hc1 <-].
      by apply Hkeep.
    + by rewrite Hlen.
    + intros [|i] g Hg; simpl in Hg.
      * injection Hg as <-.
        exists (length (conns w)), (length (chans w)). simpl.
        split; [done|]. split; [done|]. split.
        -- intros Hlast. assert (es = []) as -> by (destruct es; simpl in *; [done|lia]).
           simpl in Hrun. injection Hrun as <- <-.
           exists (length (handlers w)).
           split; [apply registered_Load|]. split.
           ++ rewrite registered_handlers, lookup_app_r by done.
              by rewrite Nat.sub_diag.
           ++ by apply registered_new_chan.
        -- intros Hmore.
           assert (es ≠ []) as Hne by (intros ->; simpl in *; lia).
           apply (Hret Hne (length (handlers w))
                    (new_handler (length (conns w)) (length (chans w)))).
           ++ apply registered_Load.
           ++ rewrite registered_handlers, lookup_app_r by done.
              by rewrite Nat.sub_diag.
      * destruct (Hset i g Hg) as (cc & ch & Hei & Hpc & Hlast & Hmore).
        exists cc, ch. simpl.
        split; [done|]. split; [done|]. split.
        -- intros Hl. apply Hlast. lia.
        -- intros Hl. apply Hmore. lia.
Qed.

(** C1: after N successful registrations served one after the other,
    each run until it blocks on its channel (from a world where no
    registration is under way, e.g. a new middleware), every one of them
    waits on the channel of the handler it stored, the handler of the last
    one is what [Load] returns, and the channel of each of the N-1 earlier
    ones has been closed exactly once. *)
Theorem sequential_registrations_last_current_others_retired_once
    (fuel : nat) (w : world) (es : list env) :
  5 ≤ fuel -> quiescent w -> Forall (registers (Secret (mw w))) es ->
  exists gs w',
    serve_all fuel es w = (gs, w')
    /\ length gs = length es
    /\ forall i g, gs !! i = Some g ->
         exists cc ch,
           es !! i = Some (genv g) /\ gpc g = pcWait cc ch
           /\ (S i = length es ->
                 exists h, Load w' = Some h
                           /\ handlers w' !! h = Some (new_handler cc ch)
                           /\ chans w' !! ch = Some false
                           /\ closes ch (trace w') = 0)
           /\ (S i < length es ->
                 chans w' !! ch = Some true /\ closes ch (trace w') = 1).
Proof.
  intros Hfuel Hq Hes.
  destruct (serve_all_registers fuel es Hfuel w Hq Hes)
    as (gs & w' & Hrun & _ & _ & _ & _ & Hlen & Hset).
  exists gs, w'. split; [done|]. split; [done|]. exact Hset.
Qed.

(** ** Requests with and without the secret *)

Ltac step_cases :=
  unfold step, goto, Store, alloc_conn, close_chan, emit, die, Load,
    transport_alive in *;
  simpl in *; repeat case_match; simplify_eq/=.

Lemma ServeHTTP_setup_fails (fuel : nat) (w : world) (e : env) :
  2 ≤ fuel ->
  Header_Get (Header (req e)) "X-Client-Proxy" = Secret (mw w) ->
  setup_fails e ->
  exists err evs,
    ServeHTTP fuel e w = (mkGoroutine e (pcReturn (Some err)), emit w evs)
    /\ setup_error e err
    /\ Forall (fun ev => is_slot_write ev = false /\ is_next ev = false
                         /\ is_forward ev = false) evs.
Proof.
  intros Hfuel Hh Hf.
  do 2 (destruct fuel as [|fuel]; [lia|]). clear Hfuel.
  destruct (step_acceptProxy_fails e w Hf) as (err & evs & Hs & Herr & Hevs).
  exists err, evs. split; [|done].
  unfold ServeHTTP.
  rewrite (run_goroutine_step _ _ _ _ _ (step_ServeHTTP_secret e w Hh)).
  rewrite (run_goroutine_step _ _ _ _ _ Hs).
  by apply run_goroutine_stuck.
Qed.

(** The trace is the only part of the world that does not bear on what a
    goroutine does next. *)
Lemma step_emit (g : goroutine) (w : world) (evs : list event) :
  fst <$> step g (emit w evs) = fst <$> step g w.
Proof. destruct g as [e p]; destruct p; step_cases; done. Qed.

(** C3: when the request carries the secret and one of the setup calls
    (full duplex, hijack, flush, client connection) fails, [acceptProxy]
    returns the error of the first call that failed, and the world it
    leaves differs from the one it found by events only, none of them a
    [Store] or a [close]: slot, handlers, channels and client connections
    are the same, and so is the next step of every goroutine. *)
Theorem failed_setup_leaves_slot_untouched (fuel : nat) (w : world) (e : env) :
  2 ≤ fuel ->
  Header_Get (Header (req e)) "X-Client-Proxy" = Secret (mw w) ->
  setup_fails e ->
  exists err w',
    ServeHTTP fuel e w = (mkGoroutine e (pcReturn (Some err)), w')
    /\ setup_error e err
    /\ Load w' = Load w
    /\ mw w' = mw w /\ handlers w' = handlers w
    /\ chans w' = chans w /\ conns w' = conns w
    /\ (exists evs, trace w' = trace w ++ evs
                    /\ Forall (fun ev => is_slot_write ev = false) evs)
    /\ forall g, fst <$> step g w' = fst <$> step g w.
Proof.
  intros Hfuel Hh Hf.
  destruct (ServeHTTP_setup_fails fuel w e Hfuel Hh Hf)
    as (err & evs & Hrun & Herr & Hevs).
  exists err, (emit w evs). split_and!; try done.
  - exists evs. split; [done|]. eapply Forall_impl; [exact Hevs|]. by intros ev [? _].
  - intros g. apply step_emit.
Qed.

Lemma accepting_step (g g' : goroutine) (w w' : world) :
  accepting (gpc g) = true -> step g w = Some (g', w') ->
  accepting (gpc g') = true
  /\ exists evs, trace w' = trace w ++ evs /\ Forall quiet evs.
Proof.
  destruct g as [e p]. intros Hacc Hs.
  destruct p; simpl in Hacc; try done; step_cases;
    (split; [done|]);
    first [ by exists []; rewrite app_nil_r
          | by eexists; split; [reflexivity|repeat constructor] ].
Qed.

Lemma accepting_run (fuel : nat) (g : goroutine) (w : world) :
  accepting (gpc g) = true ->
  accepting (gpc (fst (run_goroutine fuel g w))) = true
  /\ exists evs, trace (snd (run_goroutine fuel g w)) = trace w ++ evs
                 /\ Forall quiet evs.
Proof.
  revert g w. induction fuel as [|fuel IH]; intros g w Hacc; simpl.
  { split; [done|]. exists []. by rewrite app_nil_r. }
  destruct (step g w) as [[g' w']|] eqn:Hs; simpl.
  - destruct (accepting_step g g' w w' Hacc Hs) as (Hacc' & evs & Htr & Hevs).
    destruct (IH g' w' Hacc') as (Hacc'' & evs' & Htr' & Hevs').
    split; [done|]. exists (evs ++ evs').
    rewrite Htr', Htr, app_assoc. split; [done|]. by apply Forall_app.
  - split; [done|]. exists []. by rewrite app_nil_r.
Qed.

(** With a secret that passed [Validate], the header read by [Get]
    equals the secret exactly when the header is present and its first
    value is the secret. *)
Lemma Header_Get_secret (m : Middleware) (hdr : gmap string (list string)) :
  Validate m = None ->
  Header_Get hdr "X-Client-Proxy" = Secret m
  <-> exists vs, hdr !! "X-Client-Proxy" = Some (Secret m :: vs).
Proof.
  unfold Validate, Header_Get. case_decide as Hs; [done|]. intros _.
  destruct (hdr !! "X-Client-Proxy") as [[|v vs]|]; split.
  - intros Heq. by destruct Hs.
  - by intros [vs' ?].
  - intros <-. by exists vs.
  - intros [vs' ?]. by simplify_eq.
  - intros Heq. by destruct Hs.
  - by intros [vs' ?].
Qed.

(** C10: [ServeHTTP] enters [acceptProxy] exactly when the
    [X-Client-Proxy] header equals the secret (with a validated secret:
    exactly when the header is present with the secret as its first
    value); from there on, however far the call gets, it neither hands
    the request to the next handler nor forwards it over the stored
    transport; and when a setup call fails it returns the error of that
    call. *)
Theorem registration_iff_header_is_secret (w : world) (e : env) :
  (step (mkGoroutine e pcServeHTTP) w = Some (mkGoroutine e pcAcceptProxy, w)
   <-> Header_Get (Header (req e)) "X-Client-Proxy" = Secret (mw w))
  /\ (Validate (mw w) = None ->
      (step (mkGoroutine e pcServeHTTP) w = Some (mkGoroutine e pcAcceptProxy, w)
       <-> exists vs, Header (req e) !! "X-Client-Proxy"
                      = Some (Secret (mw w) :: vs)))
  /\ (Header_Get (Header (req e)) "X-Client-Proxy" = Secret (mw w) ->
      (forall fuel,
          gpc (fst (ServeHTTP fuel e w)) ≠ pcForward
          /\ exists evs, trace (snd (ServeHTTP fuel e w)) = trace w ++ evs
                         /\ Forall quiet evs)
      /\ (setup_fails e -> forall fuel, 2 ≤ fuel ->
          exists err, gpc (fst (ServeHTTP fuel e w)) = pcReturn (Some err)
                      /\ setup_error e err)).
Proof.
  assert (step (mkGoroutine e pcServeHTTP) w
          = Some (mkGoroutine e pcAcceptProxy, w)
          <-> Header_Get (Header (req e)) "X-Client-Proxy" = Secret (mw w))
    as Hiff.
  { split.
    - intros Hs. unfold step in Hs; simpl in Hs. by case_decide.
    - apply step_ServeHTTP_secret. }
  split; [exact Hiff|]. split.
  - intros Hv. rewrite Hiff. by apply Header_Get_secret.
  - intros Hh. split.
    + intros [|fuel].
      { split; [done|]. exists []. by rewrite app_nil_r. }
      unfold ServeHTTP.
      rewrite (run_goroutine_step _ _ _ _ _ (step_ServeHTTP_secret e w Hh)).
      destruct (accepting_run fuel (mkGoroutine e pcAcceptProxy) w eq_refl)
        as (Hacc & Hevs).
      split; [|done]. intros Hpc. by rewrite Hpc in Hacc.
    + intros Hf fuel Hfuel.
      destruct (ServeHTTP_setup_fails fuel w e Hfuel Hh Hf)
        as (err & evs & -> & Herr & _).
      by exists err.
Qed.

(** C6, as the code has it: a request whose credential is not the secret
    never hijacks the connection.  When the slot holds a handler the
    request is handed to that handler's proxy, and [ServeHTTP] returns
    nil unless the proxy aborts the handler, which it can only do over a
    live transport and which ends the call in the proxy's panic; only when
    the slot is empty does the request fall through to the next handler,
    whose result is returned. *)
Theorem other_credential_forwarded_or_next (fuel : nat) (w : world) (e : env) :
  2 ≤ fuel ->
  Header_Get (Header (req e)) "X-Client-Proxy" ≠ Secret (mw w) ->
  exists p ev,
    ServeHTTP fuel e w = (mkGoroutine e p, emit w [ev])
    /\ is_hijack ev = false
    /\ match Load w with
       | Some h =>
           ev = EvProxyServe h (req e)
           /\ (proxyAbort e = true -> transport_alive w h = true -> p = pcPanic)
           /\ (proxyAbort e = false \/ transport_alive w h = false ->
               p = pcReturn None)
       | None => ev = EvNext (req e) /\ p = pcReturn (next e)
       end.
Proof.
  intros Hfuel Hh.
  do 2 (destruct fuel as [|fuel]; [lia|]). clear Hfuel.
  unfold ServeHTTP.
  rewrite (run_goroutine_step _ _ _ _ _ (step_ServeHTTP_other e w Hh)).
  destruct (Load w) as [h|] eqn:HL.
  - destruct (proxyAbort e && transport_alive w h) eqn:Hab.
    + exists pcPanic, (EvProxyServe h (req e)).
      erewrite run_goroutine_step; [|unfold step; simpl; by rewrite HL, Hab].
      rewrite run_goroutine_stuck by done.
      apply andb_true_iff in Hab as [Ha Hl].
      split; [done|]. split; [done|]. split; [done|]. split; [done|].
      intros [?|?]; congruence.
    + exists (pcReturn None), (EvProxyServe h (req e)).
      erewrite run_goroutine_step; [|unfold step; simpl; by rewrite HL, Hab].
      rewrite run_goroutine_stuck by done.
      apply andb_false_iff in Hab.
      split; [done|]. split; [done|]. split; [done|]. split; [|done].
      intros Ha Hl. destruct Hab; congruence.
  - exists (pcReturn (next e)), (EvNext (req e)).
    erewrite run_goroutine_step; [|unfold step; simpl; by rewrite HL].
    by rewrite run_goroutine_stuck.
Qed.

(** ** Handover *)



(** ** The slot is never emptied *)

Lemma step_keeps_slot_full (g g' : goroutine) (w w' : world) :
  step g w = Some (g', w') -> is_Some (Load w) -> is_Some (Load w').
Proof.
  destruct g as [e p]. intros Hs HL.
  destruct p; step_cases; first [done | by eexists].
Qed.

Lemma run_keeps_slot_full (sched : list action) (mc : machine) :
  is_Some (Load (shared mc)) -> is_Some (Load (shared (run sched mc))).
Proof.
  revert mc. induction sched as [|a sched IH]; intros mc HL; [done|].
  apply IH. destruct a as [i|cc]; simpl; [|done].
  destruct (goroutines mc !! i) as [g|]; [|done].
  destruct (step g (shared mc)) as [[g' w']|] eqn:Hs; [|done].
  simpl. by eapply step_keeps_slot_full.
Qed.

(** After [die cc] no round trip over connection [cc] succeeds. *)
Lemma die_not_alive (w : world) (h cc : nat) (hd : handler) :
  handlers w !! h = Some hd -> Transport (proxy hd) = cc ->
  transport_alive (die cc w) h = false.
Proof.
  intros Hhd Hcc. unfold transport_alive; simpl. rewrite Hhd, Hcc.
  apply bool_decide_eq_false_2.
  destruct (decide (cc < length (conns w))) as [Hlt|Hge].
  - by rewrite list_lookup_insert_eq.
  - rewrite lookup_ge_None_2; [done|]. rewrite length_insert. lia.
Qed.

(** C5, as the code has it: when the connection of the transport in the
    slot is dead the slot still holds its handler; a request without the
    secret is then still handed to that handler's proxy, and [ServeHTTP]
    returns nil without calling the next handler (over the dead
    connection the proxy has no response to cut off); and whatever runs
    afterwards, the slot is never empty again. *)
Theorem dead_transport_stays_in_slot
    (fuel : nat) (w : world) (h cc : nat) (hd : handler) (e : env) :
  2 ≤ fuel -> Load w = Some h ->
  handlers w !! h = Some hd -> Transport (proxy hd) = cc ->
  Header_Get (Header (req e)) "X-Client-Proxy" ≠ Secret (mw w) ->
  Load (die cc w) = Some h
  /\ ServeHTTP fuel e (die cc w)
     = (mkGoroutine e (pcReturn None), emit (die cc w) [EvProxyServe h (req e)])
  /\ forall gs sched,
       is_Some (Load (shared (run sched (mkMachine gs (die cc w))))).
Proof.
  intros Hfuel HL Hhd Hcc Hh. split; [done|]. split.
  - do 2 (destruct fuel as [|fuel]; [lia|]). clear Hfuel.
    unfold ServeHTTP.
    rewrite (run_goroutine_step _ _ _ _ _ (step_ServeHTTP_other e (die cc w) Hh)).
    erewrite run_goroutine_step.
    + by apply run_goroutine_stuck.
    + unfold step; simpl.
      change (Load (die cc w)) with (Load w). rewrite HL.
      rewrite (die_not_alive w h cc hd Hhd Hcc). by rewrite andb_false_r.
  - intros gs sched. apply run_keeps_slot_full. simpl.
    change (Load (die cc w)) with (Load w). by rewrite HL.
Qed.

(** ** The director of every stored handler *)

Lemma step_directors (g g' : goroutine) (w w' : world) :
  step g w = Some (g', w') -> directors_https w -> directors_https w'.
Proof.
  destruct g as [e p]. unfold directors_https. intros Hs Hd.
  destruct p; step_cases; try done.
  apply Forall_app. split; [done|]. by repeat constructor.
Qed.

Lemma run_directors (sched : list action) (mc : machine) :
  directors_https (shared mc) -> directors_https (shared (run sched mc)).
Proof.
  revert mc. induction sched as [|a sched IH]; intros mc Hd; [done|].
  apply IH. destruct a as [i|cc]; simpl; [|done].
  destruct (goroutines mc !! i) as [g|]; [|done].
  destruct (step g (shared mc)) as [[g' w']|] eqn:Hs; [|done].
  simpl. by eapply step_directors.
Qed.

(** C8, as the code has it: whatever the goroutines have done, the
    director of every stored handler forces the scheme of the request to
    https and leaves the rest of it alone: the authority it is sent to is
    the one of the inbound request, and so are method, path, query and
    headers. *)
Theorem director_forces_https_keeps_authority
    (secret : string) (es : list env) (sched : list action)
    (h : nat) (hd : handler) (r : Request) :
  handlers (shared (run sched (start secret es))) !! h = Some hd ->
  Scheme (rURL (Director (proxy hd) r)) = "https"
  /\ authority (Director (proxy hd) r) = authority r
  /\ Host (rURL (Director (proxy hd) r)) = Host (rURL r)
  /\ rHost (Director (proxy hd) r) = rHost r
  /\ Path (rURL (Director (proxy hd) r)) = Path (rURL r)
  /\ RawQuery (rURL (Director (proxy hd) r)) = RawQuery (rURL r)
  /\ Method (Director (proxy hd) r) = Method r
  /\ Header (Director (proxy hd) r) = Header r.
Proof.
  intros Hhd.
  assert (directors_https (shared (run sched (start secret es)))) as Hd.
  { apply run_directors. constructor. }
  unfold directors_https in Hd. rewrite Forall_lookup in Hd.
  rewrite (Hd h hd Hhd). done.
Qed.

(** ** The statements at concrete requests *)

Lemma active_quiescent : quiescent Ex.active.
Proof.
  unfold Ex.active.
  rewrite (ServeHTTP_registers 5 _ _ (le_n 5) (new_world_quiescent _));
    [|by repeat split].
  apply registered_quiescent, new_world_quiescent.
Qed.

Lemma sequential_registrations_witness :
  5 ≤ 5 /\ quiescent (new_world Ex.secret)
  /\ Forall (registers (Secret (mw (new_world Ex.secret)))) Ex.three_clients
  /\ exists gs w',
       serve_all 5 Ex.three_clients (new_world Ex.secret) = (gs, w')
       /\ length gs = length Ex.three_clients
       /\ forall i g, gs !! i = Some g -> settled Ex.three_clients w' i g.
Proof.
  split; [lia|]. split; [apply new_world_quiescent|].
  split; [by repeat constructor|].
  apply (sequential_registrations_last_current_others_retired_once
           5 (new_world Ex.secret) Ex.three_clients).
  - lia.
  - apply new_world_quiescent.
  - by repeat constructor.
Defined.

(** The statement about registrations served one after the other does
    not extend to registrations that interleave: when two clients both
    load the empty slot before either stores, both end up waiting, the
    second handler is in the slot, and the channel of the first was never
    closed. *)
Remark racing_registrations_first_not_retired :
  gpc <$> goroutines Ex.race = [pcWait 0 0; pcWait 1 1]
  /\ Load (shared Ex.race) = Some 1
  /\ chans (shared Ex.race) = [false; false]
  /\ closes 0 (trace (shared Ex.race)) = 0.
Proof. split_and!; vm_compute; reflexivity. Qed.



Lemma failed_setup_leaves_slot_untouched_witness :
  2 ≤ 2
  /\ Header_Get (Header (req Ex.h2_client)) "X-Client-Proxy" = Secret (mw Ex.active)
  /\ setup_fails Ex.h2_client
  /\ exists err w',
       ServeHTTP 2 Ex.h2_client Ex.active
       = (mkGoroutine Ex.h2_client (pcReturn (Some err)), w')
       /\ setup_error Ex.h2_client err
       /\ Load w' = Load Ex.active
       /\ mw w' = mw Ex.active /\ handlers w' = handlers Ex.active
       /\ chans w' = chans Ex.active /\ conns w' = conns Ex.active
       /\ (exists evs, trace w' = trace Ex.active ++ evs
                       /\ Forall (fun ev => is_slot_write ev = false) evs)
       /\ forall g, fst <$> step g w' = fst <$> step g Ex.active.
Proof.
  split; [lia|]. split; [reflexivity|].
  split; [right; left; discriminate|].
  apply (failed_setup_leaves_slot_untouched 2 Ex.active Ex.h2_client).
  - lia.
  - reflexivity.
  - right; left; discriminate.
Defined.


(** C5 fails as stated: the connection of the registered client is dead
    when the visitor is served, yet the slot still holds its handler and
    the visitor is handed to that handler's proxy; the next handler is not
    called. *)
Lemma dead_transport_still_looked_up :
  conns (shared Ex.dead) !! 0 = Some true
  /\ Load (shared Ex.dead) = Some 0
  /\ (Transport ∘ proxy) <$> handlers (shared Ex.dead) !! 0 = Some 0
  /\ gpc <$> goroutines Ex.dead !! 1 = Some (pcReturn None)
  /\ trace (shared Ex.dead)
     = [EvHijack (req (Ex.client "a.example")); EvStore 0;
        EvProxyServe 0 (req Ex.visitor)]
  /\ List.filter is_next (trace (shared Ex.dead)) = [].
Proof. split_and!; vm_compute; reflexivity. Qed.

Lemma dead_transport_stays_in_slot_witness :
  2 ≤ 2 /\ Load Ex.active = Some 0
  /\ handlers Ex.active !! 0 = Some (new_handler 0 0)
  /\ Transport (proxy (new_handler 0 0)) = 0
  /\ Header_Get (Header (req Ex.cut_off_visitor)) "X-Client-Proxy"
     ≠ Secret (mw Ex.active)
  /\ Load (die 0 Ex.active) = Some 0
  /\ ServeHTTP 2 Ex.cut_off_visitor (die 0 Ex.active)
     = (mkGoroutine Ex.cut_off_visitor (pcReturn None),
        emit (die 0 Ex.active) [EvProxyServe 0 (req Ex.cut_off_visitor)])
  /\ forall gs sched,
       is_Some (Load (shared (run sched (mkMachine gs (die 0 Ex.active))))).
Proof.
  split; [lia|]. split; [reflexivity|]. split; [reflexivity|].
  split; [reflexivity|]. split; [vm_compute; discriminate|].
  apply (dead_transport_stays_in_slot
           2 Ex.active 0 0 (new_handler 0 0) Ex.cut_off_visitor).
  - lia.
  - reflexivity.
  - reflexivity.
  - reflexivity.
  - vm_compute; discriminate.
Defined.

(** C6 fails as stated: with a client registered, the visitor, whose
    credential is not the secret, is handed to the stored handler's proxy
    and [ServeHTTP] returns nil; the next handler is not called and its
    result is not what is returned. *)
Lemma other_credential_forwarded_when_active :
  Header_Get (Header (req Ex.visitor)) "X-Client-Proxy" ≠ Secret (mw Ex.active)
  /\ ServeHTTP 2 Ex.visitor Ex.active
     = (mkGoroutine Ex.visitor (pcReturn None),
        emit Ex.active [EvProxyServe 0 (req Ex.visitor)])
  /\ List.filter is_next (trace (snd (ServeHTTP 2 Ex.visitor Ex.active))) = []
  /\ next Ex.visitor ≠ None.
Proof.
  split_and!; vm_compute; first [reflexivity | discriminate].
Qed.

Lemma other_credential_forwarded_or_next_witness :
  2 ≤ 2
  /\ Header_Get (Header (req Ex.cut_off_visitor)) "X-Client-Proxy"
     ≠ Secret (mw Ex.active)
  /\ exists p ev,
       ServeHTTP 2 Ex.cut_off_visitor Ex.active
       = (mkGoroutine Ex.cut_off_visitor p, emit Ex.active [ev])
       /\ is_hijack ev = false
       /\ match Load Ex.active with
          | Some h =>
              ev = EvProxyServe h (req Ex.cut_off_visitor)
              /\ (proxyAbort Ex.cut_off_visitor = true ->
                  transport_alive Ex.active h = true -> p = pcPanic)
              /\ (proxyAbort Ex.cut_off_visitor = false
                  \/ transport_alive Ex.active h = false ->
                  p = pcReturn None)
          | None => ev = EvNext (req Ex.cut_off_visitor)
                    /\ p = pcReturn (next Ex.cut_off_visitor)
          end.
Proof.
  split; [lia|]. split; [vm_compute; discriminate|].
  apply (other_credential_forwarded_or_next 2 Ex.active Ex.cut_off_visitor).
  - lia.
  - vm_compute; discriminate.
Defined.

(** C8 fails as stated: the visitor's request goes out to the authority
    it came in with, and no single endpoint is the authority of every
    rewritten request. *)
Lemma director_keeps_inbound_authority :
  authority (req Ex.visitor) = "origin.example"
  /\ authority (Director (proxy (new_handler 0 0)) (req Ex.visitor))
     = "origin.example"
  /\ ~ (exists endpoint, forall r, authority (Director_https r) = endpoint).
Proof.
  split; [reflexivity|]. split; [reflexivity|].
  intros [endpoint Hall].
  pose proof (Hall (req (Ex.client "a.example"))) as Ha.
  pose proof (Hall (req (Ex.client "b.example"))) as Hb.
  vm_compute in Ha, Hb. congruence.
Qed.

Lemma director_forces_https_keeps_authority_witness :
  handlers (shared (run [Run 0; Run 0; Run 0; Run 0]
                        (start Ex.secret [Ex.client "a.example"]))) !! 0
  = Some (new_handler 0 0)
  /\ Scheme (rURL (Director (proxy (new_handler 0 0)) (req Ex.visitor))) = "https"
  /\ authority (Director (proxy (new_handler 0 0)) (req Ex.visitor))
     = authority (req Ex.visitor)
  /\ Host (rURL (Director (proxy (new_handler 0 0)) (req Ex.visitor)))
     = Host (rURL (req Ex.visitor))
  /\ rHost (Director (proxy (new_handler 0 0)) (req Ex.visitor))
     = rHost (req Ex.visitor)
  /\ Path (rURL (Director (proxy (new_handler 0 0)) (req Ex.visitor)))
     = Path (rURL (req Ex.visitor))
  /\ RawQuery (rURL (Director (proxy (new_handler 0 0)) (req Ex.visitor)))
     = RawQuery (rURL (req Ex.visitor))
  /\ Method (Director (proxy (new_handler 0 0)) (req Ex.visitor))
     = Method (req Ex.visitor)
  /\ Header (Director (proxy (new_handler 0 0)) (req Ex.visitor))
     = Header (req Ex.visitor).
Proof.
  split; [reflexivity|].
  apply (director_forces_https_keeps_authority
           Ex.secret [Ex.client "a.example"] [Run 0; Run 0; Run 0; Run 0]
           0 (new_handler 0 0) (req Ex.visitor)).
  reflexivity.
Defined.

Lemma registration_iff_header_is_secret_witness :
  Header_Get (Header (req Ex.h2_client)) "X-Client-Proxy" = Secret (mw Ex.active)
  /\ setup_fails Ex.h2_client /\ 2 ≤ 2
  /\ step (mkGoroutine Ex.h2_client pcServeHTTP) Ex.active
     = Some (mkGoroutine Ex.h2_client pcAcceptProxy, Ex.active)
  /\ gpc (fst (ServeHTTP 2 Ex.h2_client Ex.active)) ≠ pcForward
  /\ (exists evs, trace (snd (ServeHTTP 2 Ex.h2_client Ex.active))
                  = trace Ex.active ++ evs /\ Forall quiet evs)
  /\ exists err, gpc (fst (ServeHTTP 2 Ex.h2_client Ex.active)) = pcReturn (Some err)
                 /\ setup_error Ex.h2_client err.
Proof.
  assert (Header_Get (Header (req Ex.h2_client)) "X-Client-Proxy"
          = Secret (mw Ex.active)) as Hh by reflexivity.
  assert (setup_fails Ex.h2_client) as Hf by (right; left; discriminate).
  destruct (registration_iff_header_is_secret Ex.active Ex.h2_client)
    as (Hiff & _ & Hreg).
  destruct (Hreg Hh) as [Hquiet Herr].
  split; [exact Hh|]. split; [exact Hf|]. split; [lia|].
  split; [apply Hiff, Hh|].
  split; [apply (Hquiet 2)|]. split; [apply (Hquiet 2)|].
  apply (Herr Hf 2). lia.
Defined.

(** * Further properties *)

(** ** [bufConn] as a reader *)

Section BufConnReader.

Context {Conn : Type}.
Variable Conn_Read : Conn -> nat -> (list Byte.byte * option error) * Conn.

Local Abbreviation reads := (reads Conn_Read).
Local Abbreviation direct_reads := (direct_reads Conn_Read).

Lemma netConn_Read_buffered (c : Conn) (rd : Reader) (k : nat) :
  Buffered rd ≠ 0 ->
  netConn_Read Conn_Read (decorated (mkBufConn c (Some rd))) k
  = ((take k (rbuf rd), None),
     decorated (mkBufConn c (Some (mkReader (drop k (rbuf rd)) (rcap rd) (rerr rd))))).
Proof.
  intros Hn. simpl. by rewrite (bufConn_Read_buffered Conn_Read rd c k Hn).
Qed.

Lemma netConn_Read_exhausted (c : Conn) (rd : Reader) (k : nat) :
  Buffered rd = 0 ->
  netConn_Read Conn_Read (decorated (mkBufConn c (Some rd))) k
  = (fst (Conn_Read c k), decorated (mkBufConn (snd (Conn_Read c k)) None)).
Proof.
  intros Hn. simpl. by rewrite (bufConn_Read_exhausted Conn_Read rd c k Hn).
Qed.

Lemma netConn_Read_nil (c : Conn) (k : nat) :
  netConn_Read Conn_Read (decorated (mkBufConn c None)) k
  = (fst (Conn_Read c k), decorated (mkBufConn (snd (Conn_Read c k)) None)).
Proof. simpl. unfold bufConn_Read; simpl. by destruct (Conn_Read c k). Qed.

Lemma netConn_Read_raw (c : Conn) (k : nat) :
  netConn_Read Conn_Read (rawConn c) k
  = (fst (Conn_Read c k), rawConn (snd (Conn_Read c k))).
Proof. simpl. by destruct (Conn_Read c k). Qed.

(** The four shapes of the connection handed to the transport builder. *)
Lemma netConn_cases (nc : @netConn Conn) :
  (exists c, nc = rawConn c)
  \/ (exists c, nc = decorated (mkBufConn c None))
  \/ (exists c rd, nc = decorated (mkBufConn c (Some rd)) /\ Buffered rd = 0)
  \/ (exists c rd, nc = decorated (mkBufConn c (Some rd)) /\ Buffered rd ≠ 0).
Proof.
  destruct nc as [c|[c [rd|]]]; eauto.
  destruct (decide (Buffered rd = 0)); eauto 10.
Qed.

(** The decorator is a stream again.  When the underlying connection
    delivers a fixed stream of bytes, so does the connection handed to the
    transport builder: each [Read] takes its bytes off the front of the
    rest of the carried-over buffer followed by the rest of the
    connection's stream. *)
Lemma decorator_preserves_stream (pending : Conn -> list Byte.byte) :
  stream_reader Conn_Read pending ->
  stream_reader (netConn_Read Conn_Read) (pending_on pending).
Proof.
  intros Hs nc k.
  destruct (netConn_cases nc)
    as [[c ->]|[[c ->]|[(c & rd & -> & Hz)|(c & rd & -> & Hnz)]]].
  - rewrite netConn_Read_raw; simpl. apply Hs.
  - rewrite netConn_Read_nil; simpl. apply Hs.
  - rewrite netConn_Read_exhausted by done; simpl.
    unfold Buffered in Hz. destruct (rbuf rd); [|done]. simpl. apply Hs.
  - rewrite netConn_Read_buffered by done; simpl.
    by rewrite app_assoc, take_drop.
Qed.

Lemma reads_stream (pending : Conn -> list Byte.byte) (nc : @netConn Conn) (ks : list nat) :
  stream_reader Conn_Read pending ->
  received (fst (reads nc ks)) ++ pending_on pending (snd (reads nc ks))
  = pending_on pending nc.
Proof.
  intros Hs. revert nc. induction ks as [|k ks IH]; intros nc; simpl; [done|].
  pose proof (decorator_preserves_stream pending Hs nc k) as Hk.
  destruct (netConn_Read Conn_Read nc k) as [res nc']; simpl in Hk.
  specialize (IH nc'). destruct (reads nc' ks) as [rest nc'']; simpl in *.
  unfold received in *; simpl. by rewrite <- app_assoc, IH.
Qed.

(** X1: nothing is lost, duplicated or reordered.  Over a connection that
    delivers a fixed stream, whatever the pipeline had buffered at hijack
    time (also nothing) and whatever the sizes of the reads, the bytes
    returned so far followed by what is still to come are the buffered
    bytes followed by the connection's stream. *)
Theorem reads_conserve_bytes
    (pending : Conn -> list Byte.byte) (conn : Conn) (rd : Reader) (ks : list nat) :
  stream_reader Conn_Read pending ->
  received (fst (reads (wrap conn rd) ks))
  ++ pending_on pending (snd (reads (wrap conn rd) ks))
  = rbuf rd ++ pending conn.
Proof.
  intros Hs. rewrite (reads_stream pending _ ks Hs).
  unfold wrap. case_decide as Hb; simpl; [done|].
  unfold Buffered in Hb. destruct (rbuf rd); [done|simpl in Hb; lia].
Qed.

(** X2: a [Read] returns no more bytes than the caller's buffer holds,
    provided the underlying connection keeps to that. *)
Theorem Read_within_buffer (nc : @netConn Conn) (k : nat) :
  (forall c n, length (fst (fst (Conn_Read c n))) ≤ n) ->
  length (fst (fst (netConn_Read Conn_Read nc k))) ≤ k.
Proof.
  intros Hb.
  destruct (netConn_cases nc)
    as [[c ->]|[[c ->]|[(c & rd & -> & Hz)|(c & rd & -> & Hnz)]]].
  - rewrite netConn_Read_raw; simpl. apply Hb.
  - rewrite netConn_Read_nil; simpl. apply Hb.
  - rewrite netConn_Read_exhausted by done; simpl. apply Hb.
  - rewrite netConn_Read_buffered by done; simpl.
    rewrite length_take. lia.
Qed.

(** X3: while bytes are buffered a [Read] is served from the buffer
    alone.  It returns the first [min k n] of the [n] buffered bytes and a
    nil error, where [k] is the length of the caller's buffer: a request
    for more than is buffered comes back short instead of being topped up
    from the connection, which is not read at all. *)
Theorem Read_buffered_is_short (c : Conn) (rd : Reader) (k : nat) :
  0 < Buffered rd ->
  exists rd',
    bufConn_Read Conn_Read (mkBufConn c (Some rd)) k
    = ((take (k `min` Buffered rd) (rbuf rd), None), mkBufConn c (Some rd'))
    /\ rbuf rd' = drop (k `min` Buffered rd) (rbuf rd)
    /\ Buffered rd' = Buffered rd - k
    /\ rcap rd' = rcap rd /\ rerr rd' = rerr rd.
Proof.
  intros Hn.
  exists (mkReader (drop k (rbuf rd)) (rcap rd) (rerr rd)).
  rewrite bufConn_Read_buffered by lia. unfold Buffered in *; simpl.
  destruct (decide (k ≤ length (rbuf rd))) as [Hle|Hgt].
  - rewrite Nat.min_l by done. split_and!; try done. by rewrite length_drop.
  - rewrite Nat.min_r by lia.
    rewrite !take_ge, !drop_ge by lia. split_and!; try done. simpl. lia.
Qed.


End BufConnReader.

(** ** What holds under every interleaving *)

Lemma run_app (s1 s2 : list action) (mc : machine) :
  run (s1 ++ s2) mc = run s2 (run s1 mc).
Proof. unfold run. apply foldl_app. Qed.

(** A property of the world that every step and every death of a
    connection keeps is kept by every schedule. *)
Lemma run_invariant (P : world -> Prop) :
  (forall g w g' w', step g w = Some (g', w') -> P w -> P w') ->
  (forall cc w, P w -> P (die cc w)) ->
  forall sched mc, P (shared mc) -> P (shared (run sched mc)).
Proof.
  intros Hstep Hdie sched.
  induction sched as [|a sched IH]; intros mc HP; [done|].
  apply IH. destruct a as [i|cc]; simpl; [|by apply Hdie].
  destruct (goroutines mc !! i) as [g|]; [|done].
  destruct (step g (shared mc)) as [[g' w']|] eqn:Hs; [|done].
  simpl. by eapply Hstep.
Qed.

(** Every step leaves the world as it was, or changed by one of five
    operations. *)
Inductive world_op (w : world) : world -> Prop :=
| op_none : world_op w w
| op_emit evs :
    Forall (fun ev => forall ch, is_close ch ev = false) evs ->
    (forall h, In (EvStore h) evs -> False) ->
    world_op w (emit w evs)
| op_alloc r : world_op w (snd (alloc_conn (emit w [EvHijack r])))
| op_close hd old :
    handlers w !! old = Some hd -> chans w !! done hd = Some false ->
    world_op w (close_chan (done hd) w)
| op_store cc : world_op w (snd (Store cc w))
| op_shutdown cc r : world_op w (emit (die cc w) [EvShutdown cc; EvConnClose r]).

Lemma step_world_op (g g' : goroutine) (w w' : world) :
  step g w = Some (g', w') -> world_op w w'.
Proof.
  destruct g as [e p]. unfold step; simpl. intros Hs.
  destruct p; simpl in Hs; repeat case_match; simplify_eq;
    first [ by apply op_none
          | by apply op_alloc
          | by eapply op_close
          | by apply op_store
          | by apply op_shutdown
          | apply op_emit;
            [ repeat (apply List.Forall_cons; [by intros|]); apply List.Forall_nil
            | intros ? Hin; simpl in Hin; intuition discriminate ] ].
Qed.

Lemma closes_quiet (ch : nat) (evs : list event) :
  Forall (fun ev => forall ch', is_close ch' ev = false) evs -> closes ch evs = 0.
Proof.
  induction 1 as [|ev evs Hev _ IH]; [done|].
  rewrite closes_cons, IH. by rewrite Hev.
Qed.

Lemma heap_shape_world_op (w w' : world) :
  world_op w w' -> heap_shape w -> heap_shape w'.
Proof.
  intros Hop [Hlen Hdone Hslot Hcl]. destruct Hop as [|evs Hq _|r|hd old Hhd Hopen|cc|cc r].
  - by split.
  - split; simpl; try done.
    intros ch. by rewrite closes_app, (closes_quiet ch evs Hq), Nat.add_0_r.
  - split; simpl; try done.
    intros ch. rewrite closes_app, Hcl. unfold closes; simpl. lia.
  - apply lookup_lt_Some in Hopen as Hlt.
    split; simpl; try done.
    + by rewrite length_insert.
    + intros ch. rewrite closes_app, closes_cons, Hcl; simpl.
      unfold closes at 1; simpl.
      destruct (decide (done hd = ch)) as [<-|Hne].
      * rewrite bool_decide_eq_true_2 by done.
        rewrite list_lookup_insert_eq by done.
        rewrite decide_False by congruence. by rewrite decide_True.
      * rewrite bool_decide_eq_false_2 by congruence.
        rewrite list_lookup_insert_ne by done.
        case_decide; simpl; lia.
  - split; simpl.
    + rewrite !length_app; simpl. lia.
    + intros h hd Hl. apply lookup_app_Some in Hl as [Hl|[Hge Hl]].
      * by apply Hdone.
      * apply list_lookup_singleton_Some in Hl as [Hz <-]. simpl. lia.
    + rewrite length_app; simpl. lia.
    + intros ch. rewrite closes_app, Hcl. unfold closes at 1; simpl.
      destruct (decide (ch < length (chans w))) as [Hlt|Hge].
      * rewrite lookup_app_l by done. lia.
      * rewrite (decide_False (P := (chans w !! ch = Some true)))
          by (rewrite lookup_ge_None_2; [done|lia]).
        rewrite decide_False; [done|].
        rewrite lookup_app_r by lia.
        destruct (ch - length (chans w)) as [|n]; simpl; [done|].
        by rewrite lookup_nil.
  - split; simpl; try done.
    intros ch. rewrite closes_app, Hcl. unfold closes; simpl. lia.
Qed.

Lemma heap_shape_die (cc : nat) (w : world) : heap_shape w -> heap_shape (die cc w).
Proof. intros [? ? ? ?]. by split. Qed.

Lemma heap_shape_new_world (secret : string) : heap_shape (new_world secret).
Proof. split; simpl; done. Qed.

Lemma heap_shape_run (sched : list action) (mc : machine) :
  heap_shape (shared mc) -> heap_shape (shared (run sched mc)).
Proof.
  apply (run_invariant heap_shape).
  - intros g w g' w' Hs. apply heap_shape_world_op. by eapply step_world_op.
  - apply heap_shape_die.
Qed.

Lemma heap_shape_reachable (secret : string) (es : list env) (sched : list action) :
  heap_shape (shared (run sched (start secret es))).
Proof. apply heap_shape_run. simpl. apply heap_shape_new_world. Qed.

(** X5: [Load] never returns a stale handler.  Whatever requests arrive
    and however their goroutines interleave, the slot is empty only as
    long as no handler was ever stored, and otherwise holds the handler
    stored last; handler [h] owns channel [h], so no two handlers share a
    channel. *)
Theorem slot_holds_last_stored_handler
    (secret : string) (es : list env) (sched : list action) :
  let w := shared (run sched (start secret es)) in
  match Load w with
  | Some h => S h = length (handlers w)
              /\ exists hd, handlers w !! h = Some hd
                            /\ is_Some (chans w !! done hd)
  | None => handlers w = [] /\ chans w = []
  end
  /\ forall h1 h2 hd1 hd2,
       handlers w !! h1 = Some hd1 -> handlers w !! h2 = Some hd2 ->
       done hd1 = done hd2 -> h1 = h2.
Proof.
  intros w.
  destruct (heap_shape_reachable secret es sched) as [Hlen Hdone Hslot Hcl].
  fold w in Hlen, Hdone, Hslot, Hcl. split.
  - destruct (Load w) as [h|].
    + split; [done|].
      destruct (lookup_lt_is_Some_2 (handlers w) h) as [hd Hhd]; [lia|].
      exists hd. split; [done|]. apply lookup_lt_is_Some_2.
      rewrite (Hdone h hd Hhd). lia.
    + split; [done|]. rewrite Hslot in Hlen. by destruct (chans w).
  - intros h1 h2 hd1 hd2 H1 H2 Heq.
    by rewrite <- (Hdone h1 hd1 H1), <- (Hdone h2 hd2 H2).
Qed.

(** X6: a channel is closed at most once.  Whatever requests arrive and
    however their goroutines interleave, the trace holds one close of a
    channel when the channel is closed and none when it is not; a second
    [close] of the same channel never goes through. *)
Theorem channel_closed_at_most_once
    (secret : string) (es : list env) (sched : list action) (ch : nat) :
  let w := shared (run sched (start secret es)) in
  closes ch (trace w) ≤ 1
  /\ (closes ch (trace w) = 1 <-> chans w !! ch = Some true).
Proof.
  intros w.
  destruct (heap_shape_reachable secret es sched) as [_ _ _ Hcl].
  fold w in Hcl. rewrite (Hcl ch). case_decide; split; try lia; done.
Qed.

Lemma extends_refl (w : world) : extends w w.
Proof. by split. Qed.

Lemma extends_trans (w1 w2 w3 : world) :
  extends w1 w2 -> extends w2 w3 -> extends w1 w3.
Proof.
  intros [? ? ? ? ? ?] [? ? ? ? ? ?]. split; eauto.
  - congruence.
  - by etrans.
  - by etrans.
Qed.

Lemma extends_world_op (w w' : world) : world_op w w' -> extends w w'.
Proof.
  intros Hop. destruct Hop as [|evs _ _|r|hd old Hhd Hopen|cc|cc r].
  - apply extends_refl.
  - split; simpl; try done. by apply prefix_app_r.
  - split; simpl; try done.
    + by apply prefix_app_r.
    + intros cc Hcc. by apply lookup_app_l_Some.
  - split; simpl; try done.
    + by apply prefix_app_r.
    + intros ch Hch. destruct (decide (done hd = ch)) as [<-|Hne]; [congruence|].
      by rewrite list_lookup_insert_ne.
  - split; simpl; try done.
    + by apply prefix_app_r.
    + by apply prefix_app_r.
    + intros ch Hch. by apply lookup_app_l_Some.
  - split; simpl; try done.
    + by apply prefix_app_r.
    + intros c Hc. destruct (decide (cc = c)) as [->|Hne].
      * apply list_lookup_insert_eq. by apply lookup_lt_Some in Hc.
      * by rewrite list_lookup_insert_ne.
Qed.

Lemma extends_die (cc : nat) (w : world) : extends w (die cc w).
Proof.
  split; simpl; try done.
  intros c Hc. destruct (decide (cc = c)) as [->|Hne].
  - apply list_lookup_insert_eq. by apply lookup_lt_Some in Hc.
  - by rewrite list_lookup_insert_ne.
Qed.

Lemma extends_act (mc : machine) (a : action) :
  extends (shared mc) (shared (act mc a)).
Proof.
  destruct a as [i|cc]; simpl; [|apply extends_die].
  destruct (goroutines mc !! i) as [g|]; [|apply extends_refl].
  destruct (step g (shared mc)) as [[g' w']|] eqn:Hs; [|apply extends_refl].
  simpl. apply extends_world_op. by eapply step_world_op.
Qed.

(** X7: nothing that was stored is rewritten.  Whatever runs, from any
    state of the machine: the secret stays what it was; the handlers
    stored so far stay as they were, so a forward that loaded one before
    it was displaced still holds a valid handler; a closed channel stays
    closed; a dead connection stays dead; an occupied slot stays
    occupied; and the trace only grows. *)
Theorem run_only_grows (sched : list action) (mc : machine) :
  extends (shared mc) (shared (run sched mc)).
Proof.
  revert mc. induction sched as [|a sched IH]; intros mc; [apply extends_refl|].
  simpl. eapply extends_trans; [apply extends_act|apply IH].
Qed.

(** ** Races between registrations *)

Lemma nobody_closes_insert (h i : nat) (g : goroutine) (gs : list goroutine) :
  nobody_closes h gs -> (forall cc, gpc g ≠ pcClose cc h) ->
  nobody_closes h (<[i := g]> gs).
Proof. intros Hgs Hg. by apply Forall_insert. Qed.

Lemma orphaned_act (h0 : nat) (mc : machine) (a : action) :
  orphaned h0 mc ->
  orphaned h0 (act mc a)
  /\ forall i g cc, goroutines mc !! i = Some g -> gpc g = pcWait cc h0 ->
                    goroutines (act mc a) !! i = Some g.
Proof.
  intros [Hshape Hdis Hopen Hnob].
  destruct a as [i|cc]; simpl.
  2:{ split; [|done]. split; simpl; try done. by apply heap_shape_die. }
  destruct (goroutines mc !! i) as [g|] eqn:Hg; [|by split].
  destruct (step g (shared mc)) as [[g' w']|] eqn:Hs; [|by split].
  pose proof (step_world_op g g' _ _ Hs) as Hop.
  pose proof (heap_shape_world_op _ _ Hop Hshape) as Hshape'.
  pose proof (ex_handlers _ _ (extends_world_op _ _ Hop)) as Hpre.
  assert (forall cc, gpc g ≠ pcClose cc h0) as Hgno.
  { unfold nobody_closes in Hnob. rewrite Forall_lookup in Hnob.
    by apply (Hnob i g). }
  split.
  - split; simpl.
    + done.
    + apply prefix_length in Hpre. lia.
    + destruct g as [e p].
      destruct p; unfold step in Hs; simpl in Hs; repeat case_match;
        simplify_eq; simpl; try done.
      * rewrite list_lookup_insert_ne; [done|].
        intros Heq. apply (Hgno h2conn). simpl.
        by rewrite <- Heq, (hs_done _ Hshape old _ ltac:(eassumption)).
      * by apply lookup_app_l_Some.
    + apply nobody_closes_insert; [done|].
      destruct g as [e p]. intros cc Hpc.
      destruct p; unfold step in Hs; simpl in Hs; repeat case_match;
        simplify_eq; simpl in *; try done.
      simplify_eq. pose proof (hs_slot _ Hshape) as Hslot.
      unfold Load in *. destruct (m_handler (mw (shared mc))); simplify_eq. lia.
  - intros j gj cc Hj Hpc. simpl.
    destruct (decide (i = j)) as [->|Hne].
    + rewrite Hg in Hj. injection Hj as <-.
      destruct g as [e p]; simpl in Hpc; subst p.
      unfold step in Hs; simpl in Hs. by rewrite Hopen in Hs.
    + by rewrite list_lookup_insert_ne.
Qed.

Lemma orphaned_run (h0 : nat) (sched : list action) (mc : machine) :
  orphaned h0 mc ->
  orphaned h0 (run sched mc)
  /\ forall i g cc, goroutines mc !! i = Some g -> gpc g = pcWait cc h0 ->
                    goroutines (run sched mc) !! i = Some g.
Proof.
  revert mc. induction sched as [|a sched IH]; intros mc Hor; [done|].
  destruct (orphaned_act h0 mc a Hor) as [Hor' Hstay].
  destruct (IH (act mc a) Hor') as [Hor'' Hstay'].
  split; [done|]. intros i g cc Hg Hpc. simpl.
  apply (Hstay' i g cc); [|done]. by apply (Hstay i g cc).
Qed.

(** X8: a handler displaced without its signal never gets it.  Once a
    stored handler is no longer the last one stored while its channel is
    still open and no goroutine has loaded it in order to close it, no
    continuation of the run closes that channel, and a registration that
    waits on it stays blocked where it is: its call never returns. *)
Theorem displaced_unsignalled_handler_never_retired
    (h0 : nat) (mc : machine) (sched : list action) :
  heap_shape (shared mc) ->
  S h0 < length (handlers (shared mc)) ->
  chans (shared mc) !! h0 = Some false ->
  nobody_closes h0 (goroutines mc) ->
  chans (shared (run sched mc)) !! h0 = Some false
  /\ closes h0 (trace (shared (run sched mc))) = 0
  /\ forall i g cc, goroutines mc !! i = Some g -> gpc g = pcWait cc h0 ->
       goroutines (run sched mc) !! i = Some g
       /\ step g (shared (run sched mc)) = None.
Proof.
  intros Hshape Hdis Hopen Hnob.
  destruct (orphaned_run h0 sched mc (mkOrphaned _ _ Hshape Hdis Hopen Hnob))
    as [[Hshape' _ Hopen' _] Hstay].
  split; [done|]. split.
  - rewrite (hs_closes _ Hshape' h0). by rewrite decide_False by congruence.
  - intros i g cc Hg Hpc. split; [by apply (Hstay i g cc)|].
    destruct g as [e p]; simpl in Hpc; subst p.
    unfold step; simpl. by rewrite Hopen'.
Qed.

Lemma displaced_unsignalled_handler_never_retired_witness :
  heap_shape (shared Ex.race)
  /\ S 0 < length (handlers (shared Ex.race))
  /\ chans (shared Ex.race) !! 0 = Some false
  /\ nobody_closes 0 (goroutines Ex.race)
  /\ chans (shared (run [Run 0; Run 1; Die 0] Ex.race)) !! 0 = Some false
  /\ closes 0 (trace (shared (run [Run 0; Run 1; Die 0] Ex.race))) = 0
  /\ forall i g cc, goroutines Ex.race !! i = Some g -> gpc g = pcWait cc 0 ->
       goroutines (run [Run 0; Run 1; Die 0] Ex.race) !! i = Some g
       /\ step g (shared (run [Run 0; Run 1; Die 0] Ex.race)) = None.
Proof.
  assert (heap_shape (shared Ex.race)) as Hshape
    by apply heap_shape_reachable.
  assert (nobody_closes 0 (goroutines Ex.race)) as Hnob.
  { repeat (apply List.Forall_cons; [by intros|]). apply List.Forall_nil. }
  split; [exact Hshape|]. split; [vm_compute; lia|].
  split; [reflexivity|]. split; [exact Hnob|].
  apply (displaced_unsignalled_handler_never_retired
           0 Ex.race [Run 0; Run 1; Die 0]).
  - exact Hshape.
  - vm_compute; lia.
  - reflexivity.
  - exact Hnob.
Defined.

(** X9: two registrations racing to displace the same handler.  When
    both have loaded it before either closes its channel, the one that
    closes first goes on to store its handler and waits; the other's
    [close] panics: its call does not return an error, its connection is
    closed by the deferred [Close], and its handler is never stored. *)
Theorem racing_displacers_second_panics
    (w : world) (eB eC : env) (ccB ccC old : nat) (hd : handler) :
  Load w = Some old -> handlers w !! old = Some hd ->
  chans w !! done hd = Some false ->
  let mc := run [Run 0; Run 1; Run 0; Run 0; Run 1]
                (mkMachine [mkGoroutine eB (pcLoad ccB);
                            mkGoroutine eC (pcLoad ccC)] w) in
  goroutines mc = [mkGoroutine eB (pcWait ccB (length (chans w)));
                   mkGoroutine eC pcPanic]
  /\ Load (shared mc) = Some (length (handlers w))
  /\ handlers (shared mc) = handlers w ++ [new_handler ccB (length (chans w))]
  /\ chans (shared mc) = <[done hd := true]> (chans w) ++ [false]
  /\ trace (shared mc)
     = trace w ++ [EvClose (done hd); EvStore (length (handlers w));
                   EvConnClose (req eC)].
Proof.
  intros HL Hhd Hopen mc. subst mc.
  apply lookup_lt_Some in Hopen as Hlt.
  destruct w as [[sec slot] hs cs cns tr]. unfold Load in HL; simpl in *.
  subst slot. unfold run; simpl. unfold step, goto; simpl.
  rewrite Hhd, Hopen; simpl.
  apply lookup_lt_Some in Hhd as Hlt'.
  rewrite (lookup_app_l hs) by done. rewrite Hhd; simpl.
  rewrite lookup_app_l by (rewrite length_insert; lia).
  rewrite list_lookup_insert_eq by done. simpl.
  rewrite length_insert, <- !app_assoc. done.
Qed.

Lemma racing_displacers_second_panics_witness :
  Load Ex.active = Some 0
  /\ handlers Ex.active !! 0 = Some (new_handler 0 0)
  /\ chans Ex.active !! done (new_handler 0 0) = Some false
  /\ goroutines (run [Run 0; Run 1; Run 0; Run 0; Run 1]
                     (mkMachine [mkGoroutine (Ex.client "b.example") (pcLoad 1);
                                 mkGoroutine (Ex.client "c.example") (pcLoad 2)]
                                Ex.active))
     = [mkGoroutine (Ex.client "b.example") (pcWait 1 (length (chans Ex.active)));
        mkGoroutine (Ex.client "c.example") pcPanic]
  /\ Load (shared (run [Run 0; Run 1; Run 0; Run 0; Run 1]
                       (mkMachine [mkGoroutine (Ex.client "b.example") (pcLoad 1);
                                   mkGoroutine (Ex.client "c.example") (pcLoad 2)]
                                  Ex.active)))
     = Some (length (handlers Ex.active))
  /\ handlers (shared (run [Run 0; Run 1; Run 0; Run 0; Run 1]
                       (mkMachine [mkGoroutine (Ex.client "b.example") (pcLoad 1);
                                   mkGoroutine (Ex.client "c.example") (pcLoad 2)]
                                  Ex.active)))
     = handlers Ex.active ++ [new_handler 1 (length (chans Ex.active))]
  /\ chans (shared (run [Run 0; Run 1; Run 0; Run 0; Run 1]
                       (mkMachine [mkGoroutine (Ex.client "b.example") (pcLoad 1);
                                   mkGoroutine (Ex.client "c.example") (pcLoad 2)]
                                  Ex.active)))
     = <[done (new_handler 0 0) := true]> (chans Ex.active) ++ [false]
  /\ trace (shared (run [Run 0; Run 1; Run 0; Run 0; Run 1]
                       (mkMachine [mkGoroutine (Ex.client "b.example") (pcLoad 1);
                                   mkGoroutine (Ex.client "c.example") (pcLoad 2)]
                                  Ex.active)))
     = trace Ex.active ++ [EvClose (done (new_handler 0 0));
                           EvStore (length (handlers Ex.active));
                           EvConnClose (req (Ex.client "c.example"))].
Proof.
  split; [reflexivity|]. split; [reflexivity|]. split; [reflexivity|].
  apply (racing_displacers_second_panics
           Ex.active (Ex.client "b.example") (Ex.client "c.example")
           1 2 0 (new_handler 0 0)); reflexivity.
Defined.

(** ** Connections, return values and the next handler *)

Lemma count_app (p : event -> bool) (evs1 evs2 : list event) :
  count p (evs1 ++ evs2) = count p evs1 + count p evs2.
Proof. unfold count. by rewrite List.filter_app, length_app. Qed.

Lemma step_events (g g' : goroutine) (w w' : world) :
  step g w = Some (g', w') ->
  exists evs,
    trace w' = trace w ++ evs
    /\ count is_hijack evs + holding (gpc g)
       = count is_conn_close evs + holding (gpc g')
    /\ (is_Some (Load w) -> count is_next evs = 0).
Proof.
  destruct g as [e p]. unfold step; simpl. intros Hs.
  destruct p; simpl in Hs; repeat case_match; simplify_eq;
    first [ exists []; split; [by rewrite app_nil_r|]; split; [done|done]
          | eexists; split; [reflexivity|]; split; [done|];
            first [ done | by intros [? ?] ] ].
Qed.

Lemma in_flight_insert (gs : list goroutine) (i : nat) (g g' : goroutine) :
  gs !! i = Some g ->
  in_flight (<[i := g']> gs) + holding (gpc g) = in_flight gs + holding (gpc g').
Proof.
  unfold in_flight. revert i. induction gs as [|g0 gs IH]; intros i Hi; [done|].
  destruct i as [|i]; simpl in *.
  - injection Hi as ->. lia.
  - specialize (IH i Hi). lia.
Qed.

Lemma act_balance (mc : machine) (a : action) :
  count is_hijack (trace (shared mc))
  = count is_conn_close (trace (shared mc)) + in_flight (goroutines mc) ->
  count is_hijack (trace (shared (act mc a)))
  = count is_conn_close (trace (shared (act mc a)))
    + in_flight (goroutines (act mc a)).
Proof.
  intros Hbal. destruct a as [i|cc]; simpl; [|done].
  destruct (goroutines mc !! i) as [g|] eqn:Hg; [|done].
  destruct (step g (shared mc)) as [[g' w']|] eqn:Hs; [|done].
  destruct (step_events g g' _ _ Hs) as (evs & Htr & Hev & _).
  pose proof (in_flight_insert _ i g g' Hg). simpl.
  rewrite Htr, !count_app. lia.
Qed.

(** X10: no hijacked connection outlives its call.  Whatever requests
    arrive and however their goroutines interleave, the connections
    hijacked so far exceed the connections closed so far by the number of
    goroutines that stand between their hijack and their exit from
    [acceptProxy]: once every call has returned or panicked, as many
    connections have been closed as were hijacked. *)
Theorem hijacked_connections_closed_on_exit
    (secret : string) (es : list env) (sched : list action) :
  count is_hijack (trace (shared (run sched (start secret es))))
  = count is_conn_close (trace (shared (run sched (start secret es))))
    + in_flight (goroutines (run sched (start secret es))).
Proof.
  assert (forall mc,
    count is_hijack (trace (shared mc))
    = count is_conn_close (trace (shared mc)) + in_flight (goroutines mc) ->
    count is_hijack (trace (shared (run sched mc)))
    = count is_conn_close (trace (shared (run sched mc)))
      + in_flight (goroutines (run sched mc))) as Hrun.
  { induction sched as [|a sched IH]; intros mc Hbal; [done|].
    simpl. apply IH. by apply act_balance. }
  apply Hrun. simpl. unfold in_flight.
  induction es as [|e es IH]; [done|]. simpl. by rewrite <- IH.
Qed.



Lemma errors_Is_refl (err : error) : errors_Is err err = true.
Proof. destruct err; simpl; try done; by rewrite decide_True. Qed.

(** An error built with [%w] is its cause, in the sense of [errors.Is]. *)
Lemma errors_Is_Errorf_w (prefix : string) (cause : error) :
  errors_Is (Errorf_w prefix cause) cause = true.
Proof.
  unfold Errorf_w; simpl. case_decide; [done|]. apply errors_Is_refl.
Qed.

Lemma step_returns_ok (g g' : goroutine) (w w' : world) :
  step g w = Some (g', w') -> genv g' = genv g /\ returns_ok g'.
Proof.
  destruct g as [e p]. unfold step; simpl. intros Hs.
  destruct p; simpl in Hs; repeat case_match; simplify_eq;
    (split; [done|]); unfold returns_ok, is_cause; simpl; try done.
  - right. exists "must connect using HTTP/1.1: ". eauto 10.
  - right. exists "must connect using HTTP/1.1: ". eauto 10.
  - right. exists "unexpected flush error: ". eauto 10.
  - right. exists "unable to create ClientConn: ". eauto 10.
  - right. exists "error shutting down ClientConn: ". eauto 10.
  - destruct (next e); [by left|done].
Qed.

(** X12: what [ServeHTTP] returns.  Whatever requests arrive and however
    their goroutines interleave, a call that has returned a non-nil error
    returned either the error of the next handler, as it is, or an error
    whose message starts with "client_proxy: " and that wraps the error
    of the call that failed, so that [errors.Is] finds the cause. *)
Theorem ServeHTTP_errors_wrap_their_cause
    (secret : string) (es : list env) (sched : list action)
    (i : nat) (g : goroutine) (err : error) :
  goroutines (run sched (start secret es)) !! i = Some g ->
  gpc g = pcReturn (Some err) ->
  es !! i = Some (genv g)
  /\ (next (genv g) = Some err
      \/ exists what cause,
           is_cause (genv g) cause
           /\ err = Errorf_w ("client_proxy: " +:+ what) cause
           /\ errors_Is err cause = true).
Proof.
  assert (forall mc,
    (forall j gj, goroutines mc !! j = Some gj ->
                  es !! j = Some (genv gj) /\ returns_ok gj) ->
    forall j gj, goroutines (run sched mc) !! j = Some gj ->
                 es !! j = Some (genv gj) /\ returns_ok gj) as Hrun.
  { induction sched as [|a sched IH]; intros mc Hinv; [done|].
    simpl. apply IH. destruct a as [k|cc]; simpl; [|done].
    destruct (goroutines mc !! k) as [gk|] eqn:Hk; [|done].
    destruct (step gk (shared mc)) as [[gk' w']|] eqn:Hs; [|done].
    simpl. intros j gj Hj.
    apply list_lookup_insert_Some in Hj as [(<- & <- & _)|[Hne Hj]].
    - destruct (step_returns_ok _ _ _ _ Hs) as [Henv Hok].
      rewrite Henv. split; [|done]. by apply (Hinv k gk).
    - by apply Hinv. }
  intros Hg Hpc.
  destruct (Hrun (start secret es)) with (j := i) (gj := g) as [Hes Hok].
  - simpl. intros j gj Hj. rewrite list_lookup_fmap in Hj.
    destruct (es !! j) as [e|]; simplify_eq/=. done.
  - done.
  - split; [done|]. unfold returns_ok in Hok. rewrite Hpc in Hok.
    destruct Hok as [Hn|(what & cause & Hc & ->)]; [by left|].
    right. exists what, cause. split; [done|]. split; [done|].
    apply errors_Is_Errorf_w.
Qed.

Lemma ServeHTTP_errors_wrap_their_cause_witness :
  goroutines (run [Run 0; Run 0] (start Ex.secret [Ex.h2_client])) !! 0
  = Some (mkGoroutine Ex.h2_client (pcReturn (Some Scenario.h2_error)))
  /\ gpc (mkGoroutine Ex.h2_client (pcReturn (Some Scenario.h2_error)))
     = pcReturn (Some Scenario.h2_error)
  /\ [Ex.h2_client] !! 0
     = Some (genv (mkGoroutine Ex.h2_client (pcReturn (Some Scenario.h2_error))))
  /\ (next (genv (mkGoroutine Ex.h2_client (pcReturn (Some Scenario.h2_error))))
      = Some Scenario.h2_error
      \/ exists what cause,
           is_cause (genv (mkGoroutine Ex.h2_client
                                       (pcReturn (Some Scenario.h2_error)))) cause
           /\ Scenario.h2_error = Errorf_w ("client_proxy: " +:+ what) cause
           /\ errors_Is Scenario.h2_error cause = true).
Proof.
  split; [reflexivity|]. split; [reflexivity|].
  apply (ServeHTTP_errors_wrap_their_cause
           Ex.secret [Ex.h2_client] [Run 0; Run 0] 0
           (mkGoroutine Ex.h2_client (pcReturn (Some Scenario.h2_error)))
           Scenario.h2_error); reflexivity.
Defined.

(** ** Requests that do not register *)

Lemma registers_or_not (secret : string) (e : env) :
  registers secret e
  \/ Header_Get (Header (req e)) "X-Client-Proxy" ≠ secret
  \/ setup_fails e.
Proof.
  unfold registers, setup_fails.
  destruct (decide (Header_Get (Header (req e)) "X-Client-Proxy" = secret));
    [|by right; left].
  destruct (enableFullDuplex e) eqn:?; [by right; right; left|].
  destruct (hijack e) eqn:?; [by right; right; right; left|].
  destruct (flush e) eqn:?; [by right; right; right; right; left|].
  destruct (newClientConn e) eqn:?; [by right; right; right; right; right|].
  by left.
Qed.

Lemma emit_emit (w : world) (evs1 evs2 : list event) :
  emit (emit w evs1) evs2 = emit w (evs1 ++ evs2).
Proof. unfold emit; simpl. by rewrite app_assoc. Qed.

(** A request without the secret, or whose setup fails, comes to its
    end and leaves only events behind, none of them a store or a close. *)
Lemma ServeHTTP_no_registration (fuel : nat) (e : env) (w : world) :
  2 ≤ fuel ->
  Header_Get (Header (req e)) "X-Client-Proxy" ≠ Secret (mw w) \/ setup_fails e ->
  exists p evs,
    ServeHTTP fuel e w = (mkGoroutine e p, emit w evs)
    /\ finished p
    /\ Forall (fun ev => is_slot_write ev = false) evs.
Proof.
  intros Hfuel Hno.
  destruct (decide (Header_Get (Header (req e)) "X-Client-Proxy" = Secret (mw w)))
    as [Hh|Hh].
  - destruct Hno as [?|Hf]; [done|].
    destruct (ServeHTTP_setup_fails fuel w e Hfuel Hh Hf)
      as (err & evs & Hrun & _ & Hevs).
    exists (pcReturn (Some err)), evs. split; [done|]. split; [done|].
    eapply Forall_impl; [exact Hevs|]. by intros ev [? _].
  - do 2 (destruct fuel as [|fuel]; [lia|]). clear Hfuel.
    unfold ServeHTTP.
    rewrite (run_goroutine_step _ _ _ _ _ (step_ServeHTTP_other e w Hh)).
    destruct (Load w) as [h|] eqn:HL.
    + destruct (proxyAbort e && transport_alive w h) eqn:Hab.
      * exists pcPanic, [EvProxyServe h (req e)].
        erewrite run_goroutine_step; [|unfold step; simpl; by rewrite HL, Hab].
        split; [by rewrite run_goroutine_stuck|]. split; [done|].
        by repeat constructor.
      * exists (pcReturn None), [EvProxyServe h (req e)].
        erewrite run_goroutine_step; [|unfold step; simpl; by rewrite HL, Hab].
        split; [by rewrite run_goroutine_stuck|]. split; [done|].
        by repeat constructor.
    + exists (pcReturn (next e)), [EvNext (req e)].
      erewrite run_goroutine_step; [|unfold step; simpl; by rewrite HL].
      split; [by rewrite run_goroutine_stuck|]. split; [done|].
      by repeat constructor.
Qed.

Lemma closes_no_slot_write (ch : nat) (evs : list event) :
  Forall (fun ev => is_slot_write ev = false) evs -> closes ch evs = 0.
Proof.
  induction 1 as [|ev evs Hev _ IH]; [done|].
  rewrite closes_cons, IH. by destruct ev.
Qed.

Lemma quiescent_emit (w : world) (evs : list event) :
  Forall (fun ev => is_slot_write ev = false) evs ->
  quiescent w -> quiescent (emit w evs).
Proof.
  intros Hevs [Hd Hc Hcur]. split; simpl; try done.
  intros ch Hch. by rewrite closes_app, (Hc ch Hch), closes_no_slot_write.
Qed.

(** Any request served on its own leaves no registration half done. *)
Lemma ServeHTTP_quiescent (fuel : nat) (e : env) (w : world) :
  5 ≤ fuel -> quiescent w ->
  quiescent (snd (ServeHTTP fuel e w))
  /\ Secret (mw (snd (ServeHTTP fuel e w))) = Secret (mw w).
Proof.
  intros Hfuel Hq.
  destruct (registers_or_not (Secret (mw w)) e) as [Hreg|Hno].
  - rewrite (ServeHTTP_registers fuel e w Hfuel Hq Hreg); simpl.
    split; [by apply registered_quiescent|apply registered_Secret].
  - destruct (ServeHTTP_no_registration fuel e w ltac:(lia) Hno)
      as (p & evs & -> & _ & Hevs); simpl.
    split; [by apply quiescent_emit|done].
Qed.

Lemma serve_all_quiescent (fuel : nat) (es : list env) (w : world) :
  5 ≤ fuel -> quiescent w ->
  quiescent (snd (serve_all fuel es w))
  /\ Secret (mw (snd (serve_all fuel es w))) = Secret (mw w)
  /\ length (fst (serve_all fuel es w)) = length es.
Proof.
  intros Hfuel. revert w. induction es as [|e es IH]; intros w Hq; [done|].
  simpl. destruct (ServeHTTP_quiescent fuel e w Hfuel Hq) as [Hq1 Hs1].
  destruct (ServeHTTP fuel e w) as [g w1]; simpl in *.
  destruct (IH w1 Hq1) as (Hq2 & Hs2 & Hlen).
  destruct (serve_all fuel es w1) as [gs w2]; simpl in *.
  split; [done|]. split; [congruence|]. by rewrite Hlen.
Qed.

Lemma serve_all_app (fuel : nat) (es1 es2 : list env) (w : world) :
  serve_all fuel (es1 ++ es2) w
  = (fst (serve_all fuel es1 w)
     ++ fst (serve_all fuel es2 (snd (serve_all fuel es1 w))),
     snd (serve_all fuel es2 (snd (serve_all fuel es1 w)))).
Proof.
  revert w. induction es1 as [|e es1 IH]; intros w; simpl.
  - by destruct (serve_all fuel es2 w).
  - destruct (ServeHTTP fuel e w) as [g w1]. rewrite IH.
    by destruct (serve_all fuel es1 w1).
Qed.

Lemma serve_all_no_registration (fuel : nat) (es : list env) (w : world) :
  2 ≤ fuel ->
  Forall (fun e => Header_Get (Header (req e)) "X-Client-Proxy" ≠ Secret (mw w)
                   \/ setup_fails e) es ->
  exists evs,
    snd (serve_all fuel es w) = emit w evs
    /\ Forall (fun ev => is_slot_write ev = false) evs
    /\ Forall (fun g => finished (gpc g)) (fst (serve_all fuel es w)).
Proof.
  intros Hfuel. revert w. induction es as [|e es IH]; intros w Hes.
  - exists []. simpl. by rewrite emit_nil.
  - apply Forall_cons in Hes as [He Hes].
    destruct (ServeHTTP_no_registration fuel e w Hfuel He)
      as (p & evs1 & Hrun & Hfin & Hevs1).
    simpl. rewrite Hrun.
    destruct (IH (emit w evs1) Hes) as (evs2 & Hw & Hevs2 & Hgs).
    destruct (serve_all fuel es (emit w evs1)) as [gs w2]; simpl in *.
    exists (evs1 ++ evs2). rewrite Hw, emit_emit.
    split; [done|]. split; [by apply Forall_app|].
    by constructor.
Qed.

(** X13: requests that do not register do not displace.  When requests
    are served one after the other, each until it blocks or comes to its
    end, and the requests after some successful registration either lack
    the secret or fail in their setup, then each of those comes to its end
    (it returns, or its forward is aborted by the proxy's panic), the
    registration still waits, and [Load] returns its handler, with its
    channel open and never closed. *)
Theorem last_registration_survives_other_requests
    (fuel : nat) (w : world) (es1 es2 : list env) (e : env) :
  5 ≤ fuel -> quiescent w -> registers (Secret (mw w)) e ->
  Forall (fun e' => Header_Get (Header (req e')) "X-Client-Proxy" ≠ Secret (mw w)
                    \/ setup_fails e') es2 ->
  exists gs1 gs2 cc ch h w',
    serve_all fuel (es1 ++ e :: es2) w
    = (gs1 ++ mkGoroutine e (pcWait cc ch) :: gs2, w')
    /\ length gs1 = length es1
    /\ Forall (fun g => finished (gpc g)) gs2
    /\ Load w' = Some h
    /\ handlers w' !! h = Some (new_handler cc ch)
    /\ chans w' !! ch = Some false
    /\ closes ch (trace w') = 0.
Proof.
  intros Hfuel Hq Hreg Hes2.
  destruct (serve_all_quiescent fuel es1 w Hfuel Hq) as (Hq1 & Hs1 & Hlen1).
  rewrite serve_all_app. simpl.
  destruct (serve_all fuel es1 w) as [gs1 w1]; simpl in *.
  rewrite <- Hs1 in Hreg, Hes2.
  rewrite (ServeHTTP_registers fuel e w1 Hfuel Hq1 Hreg).
  rewrite <- (registered_Secret e w1) in Hes2.
  destruct (serve_all_no_registration fuel es2 (registered e w1) ltac:(lia) Hes2)
    as (evs & Hw' & Hevs & Hgs2).
  destruct (serve_all fuel es2 (registered e w1)) as [gs2 w']; simpl in *.
  subst w'.
  destruct (registered_new_chan e w1 Hq1) as [Hopen Hzero].
  exists gs1, gs2, (length (conns w1)), (length (chans w1)),
         (length (handlers w1)), (emit (registered e w1) evs).
  split_and!; try done.
  - apply registered_Load.
  - change (handlers (emit (registered e w1) evs))
      with (handlers (registered e w1)).
    rewrite registered_handlers, lookup_app_r by done.
    by rewrite Nat.sub_diag.
  - change (trace (emit (registered e w1) evs))
      with (trace (registered e w1) ++ evs).
    by rewrite closes_app, Hzero, closes_no_slot_write.
Qed.

Lemma last_registration_survives_other_requests_witness :
  5 ≤ 5 /\ quiescent Ex.active
  /\ registers (Secret (mw Ex.active)) (Ex.client "b.example")
  /\ Forall (fun e' => Header_Get (Header (req e')) "X-Client-Proxy"
                       ≠ Secret (mw Ex.active)
                       \/ setup_fails e') [Ex.cut_off_visitor; Ex.h2_client]
  /\ exists gs1 gs2 cc ch h w',
       serve_all 5 ([Ex.visitor] ++ Ex.client "b.example"
                     :: [Ex.cut_off_visitor; Ex.h2_client]) Ex.active
       = (gs1 ++ mkGoroutine (Ex.client "b.example") (pcWait cc ch) :: gs2, w')
       /\ length gs1 = length [Ex.visitor]
       /\ Forall (fun g => finished (gpc g)) gs2
       /\ Load w' = Some h
       /\ handlers w' !! h = Some (new_handler cc ch)
       /\ chans w' !! ch = Some false
       /\ closes ch (trace w') = 0.
Proof.
  assert (Forall (fun e' => Header_Get (Header (req e')) "X-Client-Proxy"
                            ≠ Secret (mw Ex.active)
                            \/ setup_fails e') [Ex.cut_off_visitor; Ex.h2_client]) as Hes2.
  { apply List.Forall_cons; [left; vm_compute; discriminate|].
    apply List.Forall_cons; [right; right; left; discriminate|].
    apply List.Forall_nil. }
  split; [lia|]. split; [apply active_quiescent|].
  split; [by repeat split|]. split; [exact Hes2|].
  apply (last_registration_survives_other_requests
           5 Ex.active [Ex.visitor] [Ex.cut_off_visitor; Ex.h2_client]
           (Ex.client "b.example")).
  - lia.
  - apply active_quiescent.
  - by repeat split.
  - exact Hes2.
Defined.

(** ** The connection handed to the transport builder, at a concrete wire *)

Lemma wire_is_stream : stream_reader Ex.wire_Read id.
Proof. intros c k. simpl. apply take_drop. Qed.

Lemma reads_conserve_bytes_witness :
  stream_reader Ex.wire_Read id
  /\ received (fst (reads Ex.wire_Read
                      (wrap [Byte.x0d; Byte.x0a] (mkReader Ex.preface 4096 None))
                      [2; 0; 5; 1]))
     ++ pending_on id (snd (reads Ex.wire_Read
                              (wrap [Byte.x0d; Byte.x0a] (mkReader Ex.preface 4096 None))
                              [2; 0; 5; 1]))
     = rbuf (mkReader Ex.preface 4096 None) ++ id [Byte.x0d; Byte.x0a].
Proof.
  split; [apply wire_is_stream|].
  apply (reads_conserve_bytes Ex.wire_Read id [Byte.x0d; Byte.x0a]
           (mkReader Ex.preface 4096 None) [2; 0; 5; 1]).
  apply wire_is_stream.
Defined.

Lemma wire_within_buffer (c : list Byte.byte) (n : nat) :
  length (fst (fst (Ex.wire_Read c n))) ≤ n.
Proof. simpl. rewrite length_take. lia. Qed.

Lemma Read_within_buffer_witness :
  (forall c n, length (fst (fst (Ex.wire_Read c n))) ≤ n)
  /\ length (fst (fst (netConn_Read Ex.wire_Read
                         (wrap [Byte.x0d; Byte.x0a] (mkReader Ex.preface 4096 None)) 2)))
     ≤ 2.
Proof.
  split; [apply wire_within_buffer|].
  apply (Read_within_buffer Ex.wire_Read
           (wrap [Byte.x0d; Byte.x0a] (mkReader Ex.preface 4096 None)) 2).
  apply wire_within_buffer.
Defined.

Lemma Read_buffered_is_short_witness :
  0 < Buffered (mkReader Ex.preface 4096 None)
  /\ exists rd',
       bufConn_Read Ex.wire_Read
         (mkBufConn [Byte.x0d; Byte.x0a] (Some (mkReader Ex.preface 4096 None))) 5
       = ((take (5 `min` Buffered (mkReader Ex.preface 4096 None))
                (rbuf (mkReader Ex.preface 4096 None)), None),
          mkBufConn [Byte.x0d; Byte.x0a] (Some rd'))
       /\ rbuf rd' = drop (5 `min` Buffered (mkReader Ex.preface 4096 None))
                          (rbuf (mkReader Ex.preface 4096 None))
       /\ Buffered rd' = Buffered (mkReader Ex.preface 4096 None) - 5
       /\ rcap rd' = rcap (mkReader Ex.preface 4096 None)
       /\ rerr rd' = rerr (mkReader Ex.preface 4096 None).
Proof.
  split; [cbv; lia|].
  apply (Read_buffered_is_short Ex.wire_Read [Byte.x0d; Byte.x0a]
           (mkReader Ex.preface 4096 None) 5).
  cbv; lia.
Defined.


(** ** The Caddyfile directive *)

Section CaddyfileFacts.

Context {Dispenser : Type}.
Variable d_Next : Dispenser -> bool * Dispenser.
Variable d_NextArg : Dispenser -> bool * Dispenser.
Variable d_Val : Dispenser -> string.
Variable d_ArgErr : Dispenser -> error.

(** X14: which directives give a middleware that starts.  The directive
    name is consumed without looking at it; the middleware parsed from
    the rest passes [Validate] exactly when an argument follows and it is
    not the empty string.  Without an argument the result is the
    dispenser's argument error and a middleware without secret, which
    [Validate] rejects as well; with an empty argument parsing succeeds
    and only [Validate] rejects.  The secret, when there is one, is the
    argument as written; the slot of the parsed middleware is empty, and
    [Provision] never fails. *)
Theorem parseCaddyfile_validates (d : Dispenser) :
  let arg := d_NextArg (snd (d_Next d)) in
  let m := fst (parseCaddyfile d_Next d_NextArg d_Val d_ArgErr d) in
  let err := snd (parseCaddyfile d_Next d_NextArg d_Val d_ArgErr d) in
  m_handler m = None
  /\ Provision m = None
  /\ (err = None <-> fst arg = true)
  /\ (err = None -> Secret m = d_Val (snd arg))
  /\ (fst arg = false ->
      err = Some (d_ArgErr (snd arg)) /\ Secret m = EmptyString
      /\ Validate m = Some (errorString "no secret"))
  /\ (err = None /\ Validate m = None
      <-> fst arg = true /\ d_Val (snd arg) ≠ EmptyString).
Proof.
  unfold parseCaddyfile, UnmarshalCaddyfile, Validate; simpl.
  destruct (d_Next d) as [moved d1]; simpl.
  destruct (d_NextArg d1) as [[|] d2]; simpl.
  - split_and!; try done.
    case_decide as Hv; intuition congruence.
  - split_and!; try done; intuition congruence.
Qed.

End CaddyfileFacts.

(** ** A signalled registration returns *)

Lemma run_leaves_others (i : nat) (sched : list action) (mc : machine) :
  Forall (fun a => a ≠ Run i) sched ->
  goroutines (run sched mc) !! i = goroutines mc !! i.
Proof.
  revert mc. induction sched as [|a sched IH]; intros mc Hs; [done|].
  apply Forall_cons in Hs as [Ha Hs]. simpl. rewrite (IH _ Hs).
  destruct a as [j|cc]; simpl; [|done].
  destruct (goroutines mc !! j) as [g|]; [|done].
  destruct (step g (shared mc)) as [[g' w']|]; [|done]. simpl.
  apply list_lookup_insert_ne. intros Heq. apply Ha. by rewrite Heq.
Qed.

Lemma errors_Is_Errorf_w_ErrClosed (prefix : string) (err : error) :
  errors_Is (Errorf_w prefix err) ErrClosed = errors_Is err ErrClosed.
Proof. unfold Errorf_w; simpl. by repeat case_decide. Qed.

Lemma run_keeps_closed (sched : list action) (mc : machine) (ch : nat) :
  chans (shared mc) !! ch = Some true ->
  chans (shared (run sched mc)) !! ch = Some true.
Proof.
  revert mc. induction sched as [|a sched IH]; intros mc Hch; [done|].
  simpl. apply IH. by apply (ex_chans _ _ (extends_act mc a)).
Qed.

Lemma act_Run (mc : machine) (i : nat) (g g' : goroutine) (w' : world) :
  goroutines mc !! i = Some g -> step g (shared mc) = Some (g', w') ->
  act mc (Run i) = mkMachine (<[i := g']> (goroutines mc)) w'.
Proof. intros Hg Hs. simpl. by rewrite Hg, Hs. Qed.

(** Lines 106-114 on their own. *)
Lemma step_shutdown (e : env) (cc : nat) (w : world) :
  exists res w',
    step (mkGoroutine e (pcShutdown cc)) w = Some (mkGoroutine e (pcReturn res), w')
    /\ (res = None <->
        shutdown e = None
        \/ exists err, shutdown e = Some err /\ errors_Is err ErrClosed = true)
    /\ (forall err, res = Some err ->
        errors_Is err ErrClosed = false
        /\ exists cause,
             shutdown e = Some cause
             /\ err = Errorf_w "client_proxy: error shutting down ClientConn: " cause).
Proof.
  unfold step, goto; simpl.
  destruct (shutdown e) as [err|] eqn:Hsh.
  - destruct (errors_Is err ErrClosed) eqn:His.
    + exists None; eexists. split; [done|]. split; [|done]. split; [|done].
      intros _. right. by exists err.
    + eexists (Some _), _. split; [done|]. split.
      * split; [done|]. intros [?|(err' & ? & ?)]; [done|congruence].
      * intros err' [= <-]. rewrite errors_Is_Errorf_w_ErrClosed.
        split; [done|]. by exists err.
  - exists None; eexists. split; [done|]. split; [|done]. split; [|done].
    intros _. by left.
Qed.

(** X15: a registration whose channel has been closed returns, whatever
    the others do in the meantime.  After any steps of other goroutines
    and any deaths of connections, its next two steps take it through the
    shutdown to its return: nil when the shutdown succeeded or failed with
    an error that is [net.ErrClosed], and otherwise the wrapped shutdown
    error, which itself is never [net.ErrClosed]. *)
Theorem signalled_registration_returns
    (mc : machine) (sched : list action) (i cc ch : nat) (e : env) :
  goroutines mc !! i = Some (mkGoroutine e (pcWait cc ch)) ->
  chans (shared mc) !! ch = Some true ->
  Forall (fun a => a ≠ Run i) sched ->
  exists res,
    goroutines (run (sched ++ [Run i; Run i]) mc) !! i
    = Some (mkGoroutine e (pcReturn res))
    /\ (res = None <->
        shutdown e = None
        \/ exists err, shutdown e = Some err /\ errors_Is err ErrClosed = true)
    /\ (forall err, res = Some err ->
        errors_Is err ErrClosed = false
        /\ exists cause,
             shutdown e = Some cause
             /\ err = Errorf_w "client_proxy: error shutting down ClientConn: " cause).
Proof.
  intros Hg Hclosed Hsched.
  rewrite run_app.
  pose proof (run_leaves_others i sched mc Hsched) as Hi. rewrite Hg in Hi.
  pose proof (run_keeps_closed sched mc ch Hclosed) as Hcl.
  set (mc1 := run sched mc) in *.
  apply lookup_lt_Some in Hi as Hlt.
  assert (step (mkGoroutine e (pcWait cc ch)) (shared mc1)
          = Some (mkGoroutine e (pcShutdown cc), shared mc1)) as Hs1.
  { unfold step; simpl. by rewrite Hcl. }
  destruct (step_shutdown e cc (shared mc1)) as (res & w' & Hs2 & Hres).
  exists res. split; [|exact Hres].
  change (run [Run i; Run i] mc1) with (act (act mc1 (Run i)) (Run i)).
  rewrite (act_Run mc1 i _ _ _ Hi Hs1).
  erewrite (act_Run (mkMachine _ _) i);
    [|simpl; by apply list_lookup_insert_eq|exact Hs2]. simpl.
  apply list_lookup_insert_eq. by rewrite length_insert.
Qed.

Lemma signalled_registration_returns_witness :
  goroutines Scenario.displaced !! 0 = Some (mkGoroutine Ex.slow_client (pcWait 0 0))
  /\ chans (shared Scenario.displaced) !! 0 = Some true
  /\ Forall (fun a => a ≠ Run 0) [Run 1; Die 1; Run 1]
  /\ exists res,
       goroutines (run ([Run 1; Die 1; Run 1] ++ [Run 0; Run 0]) Scenario.displaced) !! 0
       = Some (mkGoroutine Ex.slow_client (pcReturn res))
       /\ (res = None <->
           shutdown Ex.slow_client = None
           \/ exists err, shutdown Ex.slow_client = Some err
                          /\ errors_Is err ErrClosed = true)
       /\ (forall err, res = Some err ->
           errors_Is err ErrClosed = false
           /\ exists cause,
                shutdown Ex.slow_client = Some cause
                /\ err = Errorf_w "client_proxy: error shutting down ClientConn: "
                                  cause).
Proof.
  assert (Forall (fun a => a ≠ Run 0) [Run 1; Die 1; Run 1]) as Hs.
  { repeat (apply List.Forall_cons; [discriminate|]). apply List.Forall_nil. }
  split; [reflexivity|]. split; [reflexivity|]. split; [exact Hs|].
  apply (signalled_registration_returns
           Scenario.displaced [Run 1; Die 1; Run 1] 0 0 0 Ex.slow_client).
  - reflexivity.
  - reflexivity.
  - exact Hs.
Defined.
